(** * Deck decoding of slay-the-relics (backend/api/deck.go)

    A shallow embedding of the deck codec: the dictionary decompressor
    ([decompressBytes], [decompress]), the two decode pipelines
    ([deck.parse] behind [deck.Bytes], and [decompressDeck] with the
    reference formatter [getStableOutput] of deck_test.go), and the
    [sync.Once] gate of [deck.Bytes].

    Conventions.
    - A Go [string] and a Go [[]byte] are both a sequence of bytes: [list ascii].
      The conversions [string(b)], [[]byte(s)] and [unsafe.String] are the
      identity on that sequence.
    - Go's [int] and [int64] are [Z]; the platform is taken to be 64-bit, the
      only place where a width matters is [ParseInt], which checks the range.
    - A Go function returning [(T, error)] returns an [outcome T]; a run-time
      panic (index out of range) is the third constructor.
    - [fmt.Printf] at deck.go:119 writes a debugging line to standard output
      and has no effect on any value of the program; it is left out. *)

From Stdlib Require Import ZArith Ascii String DecimalString.
From stdpp Require Import base option list sorting gmap strings.

Local Open Scope Z_scope.
Local Open Scope list_scope.

Abbreviation bytes := (list ascii).

(** Byte sequences are written as string literals. *)
Definition B (s : string) : bytes := list_ascii_of_string s.

(** The line feed, [\n] in the Go source. *)
Definition LF : ascii := ascii_of_nat 10.

(** Go's [len] of a string or slice. *)
Definition len {A} (l : list A) : Z := Z.of_nat (length l).

(** ** Errors, panics and results *)

Inductive NumErrKind := ErrSyntax | ErrRange.

Inductive error :=
| ErrInvalidDeck                      (* errors.New("invalid deck") *)
| ErrCardIndexOutOfBounds             (* errors.New("card index out of bounds") *)
| ErrCardNotFound                     (* errors.New("card not found") *)
| NumError (num : bytes) (k : NumErrKind). (* *strconv.NumError of ParseInt *)

Inductive panic :=
| IndexOutOfRange (index length : Z).  (* runtime error: index out of range *)

Inductive outcome (A : Type) :=
| Ok (a : A)
| Err (e : error)
| Panic (p : panic).
Arguments Ok {A} a.
Arguments Err {A} e.
Arguments Panic {A} p.

#[global] Instance outcome_ret : MRet outcome := @Ok.
#[global] Instance outcome_bind : MBind outcome := λ A B f m,
  match m with
  | Ok a => f a
  | Err e => Err e
  | Panic p => Panic p
  end.

(** A decode fails when it does not produce a value. *)
Definition fails {A} (o : outcome A) : Prop :=
  match o with Ok _ => False | _ => True end.

(** ** The Go library functions the program calls *)

(** [bytes.HasPrefix], [strings.HasPrefix]. *)
Fixpoint HasPrefix (s prefix : bytes) {struct prefix} : bool :=
  match prefix, s with
  | [], _ => true
  | _ :: _, [] => false
  | p :: prefix', c :: s' => if Ascii.eqb p c then HasPrefix s' prefix' else false
  end.

(** Offset of the first occurrence of [sep] in [s], if there is one. *)
Fixpoint index_of (s sep : bytes) : option nat :=
  if HasPrefix s sep then Some 0%nat
  else match s with
       | [] => None
       | _ :: s' => S <$> index_of s' sep
       end.

(** [bytes.Index], [strings.Index]: the offset of the first occurrence, or -1. *)
Definition Index (s sep : bytes) : Z :=
  match index_of s sep with
  | Some n => Z.of_nat n
  | None => -1
  end.

(** The slice expression [s[lo:hi]], for [0 <= lo <= hi <= len(s)]. *)
Definition slice (s : bytes) (lo hi : Z) : bytes :=
  take (Z.to_nat (hi - lo)) (drop (Z.to_nat lo) s).

(** [bytes.Split], [strings.Split] with a non-empty separator: the loop of
    [genSplit] (cut at the first separator, go on with the rest).  Every
    round shortens [s], so [length s] rounds and the last piece suffice. *)
Fixpoint genSplit (fuel : nat) (s sep : bytes) : list bytes :=
  match fuel with
  | O => [s]
  | S fuel' =>
      let m := Index s sep in
      if m <? 0 then [s]
      else slice s 0 m :: genSplit fuel' (slice s (m + len sep) (len s)) sep
  end.

Definition Split (s sep : bytes) : list bytes := genSplit (S (length s)) s sep.

(** *** strconv *)

Definition is_digit (c : ascii) : bool :=
  (N_of_ascii "0" <=? N_of_ascii c)%N && (N_of_ascii c <=? N_of_ascii "9")%N.

Definition digit_val (c : ascii) : Z := Z.of_N (N_of_ascii c) - 48.

Definition maxUint64 : Z := 2 ^ 64 - 1.

(** The digit loop of [strconv.ParseUint(s, 10, 64)]: a byte that is not a
    decimal digit is a syntax error, a value beyond [maxUint64] a range
    error, whichever the scan meets first. *)
Fixpoint ParseUint_loop (s : bytes) (n : Z) : Z + NumErrKind :=
  match s with
  | [] => inl n
  | c :: s' =>
      if negb (is_digit c) then inr ErrSyntax
      else if maxUint64 / 10 + 1 <=? n then inr ErrRange
      else let n1 := n * 10 + digit_val c in
           if maxUint64 <? n1 then inr ErrRange
           else ParseUint_loop s' n1
  end.

Definition ParseUint (s : bytes) : Z + NumErrKind :=
  match s with
  | [] => inr ErrSyntax
  | _ => ParseUint_loop s 0
  end.

(** [strconv.ParseInt(s, 10, 64)]. *)
Definition ParseInt (s : bytes) : outcome Z :=
  match s with
  | [] => Err (NumError s ErrSyntax)
  | c :: s' =>
      let neg := Ascii.eqb c "-" in
      let digits := if Ascii.eqb c "+" || neg then s' else s in
      match ParseUint digits with
      | inr ErrSyntax => Err (NumError s ErrSyntax)
      | inr ErrRange => Err (NumError s ErrRange)
      | inl un =>
          let cutoff := 2 ^ 63 in
          if negb neg && (cutoff <=? un) then Err (NumError s ErrRange)
          else if neg && (cutoff <? un) then Err (NumError s ErrRange)
          else Ok (if neg then - un else un)
      end
  end.

(** [strconv.AppendInt(dst, i, 10)] appends, and [fmt.Sprint(i)] is, the
    decimal numeral of [i]. *)
Definition FormatInt (i : Z) : bytes :=
  B (NilZero.string_of_int (Z.to_int i)).

(** *** regexp

    The program compiles two kinds of expressions: the bracket class
    <<[-\/\\^$*+?.()|[\]{}]>> and, for each symbol of [WILDCARDS], an
    expression made of literal bytes, some of them written with a
    backslash.  Both kinds match without looking at the context, and
    never match the empty sequence. *)
Module regexp.

Inductive Regexp :=
| Class (members : bytes)   (* one byte out of a bracket class *)
| Literal (lit : bytes).    (* a fixed sequence of bytes *)

(** The bytes an expression without operators stands for: a backslash
    makes the next byte literal. *)
Fixpoint unescape (pattern : bytes) : bytes :=
  match pattern with
  | [] => []
  | c :: rest =>
      if Ascii.eqb c "\" then
        match rest with
        | [] => [c]
        | e :: rest' => e :: unescape rest'
        end
      else c :: unescape rest
  end.

(** [regexp.MustCompile] on an expression of literal bytes. *)
Definition MustCompile (pattern : bytes) : Regexp := Literal (unescape pattern).

Definition mem (c : ascii) (members : bytes) : bool :=
  existsb (Ascii.eqb c) members.

Fixpoint find_class (members s : bytes) : option nat :=
  match s with
  | [] => None
  | c :: s' => if mem c members then Some 0%nat else S <$> find_class members s'
  end.

(** Leftmost match in [s]: its offset and its length. *)
Definition find (re : Regexp) (s : bytes) : option (nat * nat) :=
  match re with
  | Class members => (λ m, (m, 1%nat)) <$> find_class members s
  | Literal lit => (λ m, (m, length lit)) <$> index_of s lit
  end.

(** Bytes that may occur in the name of a template variable.  Go admits
    every Unicode letter and digit; the embedding has the ASCII ones, which
    is exact for a template whose dollar signs are followed by ASCII. *)
Definition is_name_byte (c : ascii) : bool :=
  let n := N_of_ascii c in
  is_digit c || ((65 <=? n) && (n <=? 90))%N || ((97 <=? n) && (n <=? 122))%N
  || Ascii.eqb c "_".

Fixpoint span_name (s : bytes) : bytes * bytes :=
  match s with
  | c :: s' =>
      if is_name_byte c then let '(name, rest) := span_name s' in (c :: name, rest)
      else ([], s)
  | [] => ([], [])
  end.

(** [extract]: the variable name at the head of a template, after the
    dollar sign, as <<name>> or <<{name}>>, and what follows it. *)
Definition extract (str : bytes) : option (bytes * bytes) :=
  match str with
  | [] => None
  | c :: str' =>
      let brace := Ascii.eqb c "{" in
      let '(name, rest) := span_name (if brace then str' else str) in
      match name with
      | [] => None
      | _ =>
          if brace then
            match rest with
            | r :: rest' => if Ascii.eqb r "}" then Some (name, rest') else None
            | [] => None
            end
          else Some (name, rest)
      end
  end.

(** [strings.Cut(template, "$")]. *)
Fixpoint cut_dollar (template : bytes) : option (bytes * bytes) :=
  match template with
  | [] => None
  | c :: t =>
      if Ascii.eqb c "$" then Some ([], t)
      else '(before, after) ← cut_dollar t; Some (c :: before, after)
  end.

(** [Regexp.expand], the template language of [ReplaceAll] and
    [ReplaceAllString], for an expression without groups.  In the words of
    the package: a variable is <<$name>> or <<${name}>>, the name a
    non-empty sequence of letters, digits and underscores, taken as long as
    possible; a purely numeric name refers to the submatch with that
    index, a reference to an index out of range or to a name that is not
    in the expression is replaced with an empty slice, and <<$$>> inserts
    a dollar sign.  So <<$0>> is the matched text (a name with a leading
    zero such as <<00>> is not an index), every other variable is empty,
    and a dollar sign that starts no variable is kept as it is. *)
Fixpoint expand_loop (fuel : nat) (template matched : bytes) : bytes :=
  match fuel with
  | O => template
  | S fuel' =>
      match cut_dollar template with
      | None => template
      | Some (before, after) =>
          before ++
          match after with
          | c :: after' =>
              if Ascii.eqb c "$" then c :: expand_loop fuel' after' matched
              else match extract after with
                   | None => "$"%char :: expand_loop fuel' after matched
                   | Some (name, rest) =>
                       (if decide (name = B "0") then matched else [])
                       ++ expand_loop fuel' rest matched
                   end
          | [] => ["$"%char]
          end
      end
  end.

Definition expand (template matched : bytes) : bytes :=
  expand_loop (S (length template)) template matched.

(** [Regexp.replaceAll]: copy up to the leftmost match, append the
    expansion of [repl], go on after the match. *)
Fixpoint replaceAll_loop (fuel : nat) (re : Regexp) (src repl : bytes) : bytes :=
  match fuel with
  | O => src
  | S fuel' =>
      match find re src with
      | None => src
      | Some (m, n) =>
          take m src ++ expand repl (take n (drop m src))
          ++ replaceAll_loop fuel' re (drop (m + n) src) repl
      end
  end.

(** [Regexp.ReplaceAll] and [Regexp.ReplaceAllString]. *)
Definition ReplaceAll (re : Regexp) (src repl : bytes) : bytes :=
  replaceAll_loop (S (length src)) re src repl.

End regexp.

(** ** deck.go: the matcher table *)

Definition WILDCARDS : bytes :=
  B "0123456789abcdefghijklmnopqrstvwxyzABCDEFGHIJKLMNOPQRSTVWXYZ_`[]/^%?@><=-+*:;,.()#$!'{}~".

(** [escapeRegex], the compiled class <<[-\/\\^$*+?.()|[\]{}]>>. *)
Definition escapeRegex : regexp.Regexp := regexp.Class (B "-/\^$*+?.()|[]{}").

(** [init]: one compiled expression per symbol of [WILDCARDS].  The
    replacement template is the Go string <<"\\$&">>, the three bytes
    backslash, dollar, ampersand. *)
Definition init : list regexp.Regexp :=
  map (λ c,
         let wildCard := "&"%char :: [c] in
         let escaped := regexp.ReplaceAll escapeRegex wildCard (B "\$&") in
         regexp.MustCompile escaped)
      WILDCARDS.

Definition compressionWildcardRegex : list regexp.Regexp := init.

(** ** deck.go: the dictionary decompressor *)

(** The loop <<for i := len(compressionDict) - 1; i >= 0; i-->> with
    [n = i + 1].  Reading [compressionDict[i]] is in bounds; reading
    [compressionWildcardRegex[i]] panics beyond the table. *)
Fixpoint decompress_loop (compressionDict : list bytes) (n : nat) (text : bytes)
  : outcome bytes :=
  match n with
  | O => Ok text
  | S i =>
      let word := default [] (compressionDict !! i) in
      match compressionWildcardRegex !! i with
      | None => Panic (IndexOutOfRange (Z.of_nat i) (len compressionWildcardRegex))
      | Some re => decompress_loop compressionDict i (regexp.ReplaceAll re text word)
      end
  end.

Definition decompressBytes (s : bytes) : outcome bytes :=
  let parts := Split s (B "||") in
  if len parts <? 2 then Err ErrInvalidDeck
  else
    let compressionDict := Split (default [] (parts !! 0%nat)) (B "|") in
    let text := default [] (parts !! 1%nat) in
    decompress_loop compressionDict (length compressionDict) text.

(** [decompress] is the same function on a Go string. *)
Definition decompress (s : bytes) : outcome bytes :=
  let parts := Split s (B "||") in
  if len parts <? 2 then Err ErrInvalidDeck
  else
    let compressionDict := Split (default [] (parts !! 0%nat)) (B "|") in
    let text := default [] (parts !! 1%nat) in
    decompress_loop compressionDict (length compressionDict) text.

(** ** deck.go: reading delimited fields *)

(** A Go callback [func(val []byte) error] that updates variables captured
    from its caller is a function from the field and those variables to
    their new values, or to the error. *)
Section readDelimitedBytes.
Context {St : Type}.

Definition delimCB := bytes → St → outcome St.

(** The loop <<for currIndex < len(s)>>.  [currIndex] grows by at least
    [len(delim)] in every round. *)
Fixpoint readDelimitedBytes_loop (fuel : nat) (s delim : bytes) (cb : delimCB)
         (currIndex : Z) (st : St) : outcome St :=
  match fuel with
  | O => Ok st
  | S fuel' =>
      if currIndex <? len s then
        let nextIndex := currIndex + Index (slice s currIndex (len s)) delim in
        let nextIndex := if nextIndex <? currIndex then len s else nextIndex in
        st' ← cb (slice s currIndex nextIndex) st;
        readDelimitedBytes_loop fuel' s delim cb (nextIndex + len delim) st'
      else Ok st
  end.

Definition readDelimitedBytes (s delim : bytes) (cb : delimCB) (st : St)
  : outcome St :=
  if (len s =? 0) || ((len s =? 1) && bool_decide (s !! 0%nat = Some "-"%char))
  then Ok st
  else readDelimitedBytes_loop (S (length s)) s delim cb 0 st.
End readDelimitedBytes.

(** [parseCardBytes]: the first field of a table entry. *)
Definition parseCardBytes (cardSection : bytes) : bytes :=
  let sectionEnd := Index cardSection (B ";") in
  if sectionEnd =? -1 then cardSection
  else slice cardSection 0 sectionEnd.

(** ** deck.go: the string pipeline *)

Fixpoint parseCommaDelimitedIntegerArray_loop (fuel : nat) (s : bytes)
         (currIndex : Z) (result : list Z) : outcome (list Z) :=
  match fuel with
  | O => Ok result
  | S fuel' =>
      if currIndex <? len s then
        let nextIndex := currIndex + Index (slice s currIndex (len s)) (B ",") in
        let nextIndex := if nextIndex <? currIndex then len s else nextIndex in
        resultVal ← ParseInt (slice s currIndex nextIndex);
        parseCommaDelimitedIntegerArray_loop fuel' s (nextIndex + 1)
                                             (result ++ [resultVal])
      else Ok result
  end.

Definition parseCommaDelimitedIntegerArray (s : bytes) : outcome (list Z) :=
  if bool_decide (s = B "-") then Ok []
  else parseCommaDelimitedIntegerArray_loop (S (length s)) s 0 [].

Definition splitDoubleSemicolonArray (s : bytes) : list bytes :=
  if bool_decide (s = B "-") then []
  else Split s (B ";;").

Definition parseCard (cardSection : bytes) : bytes :=
  let sectionEnd := Index cardSection (B ";") in
  if sectionEnd =? -1 then cardSection
  else slice cardSection 0 sectionEnd.

Definition parseCards (cardSections : list bytes) : list bytes :=
  map parseCard cardSections.

(** The loop <<for _, idx := range d>> of [decompressDeck];
    [deckDict[name]++] reads 0 for a name that is not yet a key. *)
Fixpoint decompressDeck_loop (cards : list bytes) (d : list Z)
         (deckDict : gmap bytes Z) : outcome (gmap bytes Z) :=
  match d with
  | [] => Ok deckDict
  | idx :: d' =>
      if (idx <? 0) || (len cards <=? idx) then Err ErrCardIndexOutOfBounds
      else
        let name := default [] (cards !! Z.to_nat idx) in
        decompressDeck_loop cards d'
          (<[name := default 0 (deckDict !! name) + 1]> deckDict)
  end.

(** [parts[1]]: a panic when [parts] has one element. *)
Definition second_part (parts : list bytes) : outcome bytes :=
  match parts !! 1%nat with
  | Some p => Ok p
  | None => Panic (IndexOutOfRange 1 (len parts))
  end.

Definition decompressDeck (deck : bytes) : outcome (gmap bytes Z) :=
  deck ← decompress deck;
  let parts := Split deck (B ";;;") in
  d ← parseCommaDelimitedIntegerArray (default [] (parts !! 0%nat));
  tableText ← second_part parts;
  let cards := parseCards (splitDoubleSemicolonArray tableText) in
  decompressDeck_loop cards d ∅.

(** ** The order of the report *)

(** The comparison handed to [slices.SortFunc], in [deck.parse] and in
    [getStableOutput]. *)
Fixpoint bytes_ltb (i j : bytes) : bool :=
  match i, j with
  | [], [] => false
  | [], _ :: _ => true
  | _ :: _, [] => false
  | a :: i', b :: j' =>
      if (N_of_ascii a <? N_of_ascii b)%N then true
      else if (N_of_ascii b <? N_of_ascii a)%N then false
      else bytes_ltb i' j'
  end.

Definition cardLess (i j : bytes) : bool :=
  if bool_decide (i = B "Ascender's Bane") then false
  else if bool_decide (j = B "Ascender's Bane") then true
  else bytes_ltb i j.

(** [slices.SortFunc] as the insertion sort it runs on short slices: each
    element in turn moves left past the elements it is less than.  The
    sorted prefix is kept in reverse.  [SortFunc_unique] below shows that on
    distinct keys every sorting procedure has this result. *)
Section SortFunc.
Context {A : Type} (less : A → A → bool).

Fixpoint insert_back (x : A) (sorted_rev : list A) : list A :=
  match sorted_rev with
  | y :: p => if less x y then y :: insert_back x p else x :: sorted_rev
  | [] => [x]
  end.

Definition SortFunc (l : list A) : list A :=
  reverse (foldl (λ sorted_rev x, insert_back x sorted_rev) [] l).
End SortFunc.

(** ** deck_test.go: the reference formatter *)

(** [getStableOutput] after [keys] has been collected: Go iterates a map
    in an unspecified order, [keys] is the order of that iteration. *)
Definition getStableOutput_from (keys : list bytes) (countMap : gmap bytes Z) : bytes :=
  let keys := SortFunc cardLess keys in
  foldl (λ result k,
           result ++ k ++ B " x" ++ FormatInt (default 0 (countMap !! k)) ++ [LF])
        [] keys.

Definition getStableOutput (countMap : gmap bytes Z) : bytes :=
  getStableOutput_from (map_to_list countMap).*1 countMap.

(** ** deck.go: the byte pipeline *)

(** [parseOnce] is the [done] flag of [sync.Once].  [parseRuns] is not a
    field of the Go struct: it counts the executions of [parse]. *)
Record deck := mkDeck {
  buf : bytes;
  parseOnce : bool;
  parseRuns : nat;
}.

(** A deck as the program creates it: <<&deck{buf: raw}>>. *)
Definition newDeck (raw : bytes) : deck :=
  {| buf := raw; parseOnce := false; parseRuns := 0 |}.

(** The callback that reads the card table. *)
Definition readCard : @delimCB (list bytes * Z) :=
  λ val '(cards, longestCard),
    Ok (cards ++ [val], if longestCard <? len val then len val else longestCard).

(** The callback that reads the indexes, over [cardIdxCountMap] and
    [uniqueCardList]. *)
Definition readIndex (cards : list bytes) : @delimCB (gmap bytes Z * list bytes) :=
  λ val '(cardIdxCountMap, uniqueCardList),
    cardIdxVal ← ParseInt val;
    if (cardIdxVal <? 0) || (len cards <=? cardIdxVal) then Err ErrCardIndexOutOfBounds
    else
      let card := parseCardBytes (default [] (cards !! Z.to_nat cardIdxVal)) in
      if len card =? 0 then Ok (cardIdxCountMap, uniqueCardList)
      else
        let cardStr := card in
        match cardIdxCountMap !! cardStr with
        | None => Ok (<[cardStr := 0 + 1]> cardIdxCountMap, uniqueCardList ++ [cardStr])
        | Some ct => Ok (<[cardStr := ct + 1]> cardIdxCountMap, uniqueCardList)
        end.

(** The loop <<for _, card := range uniqueCardList>>: the buffer it has
    built and the error it returns, if any. *)
Fixpoint format_loop (cardIdxCountMap : gmap bytes Z) (uniqueCardList : list bytes)
         (buf : bytes) : bytes * option error :=
  match uniqueCardList with
  | [] => (buf, None)
  | card :: rest =>
      let buf := buf ++ card in
      match cardIdxCountMap !! card with
      | None => (buf, Some ErrCardNotFound)
      | Some cardCount =>
          let buf :=
            if 0 <? cardCount then buf ++ B " x" ++ FormatInt cardCount ++ [LF]
            else buf in
          format_loop cardIdxCountMap rest buf
      end
  end.

(** How a call ends: it returns, or it panics. *)
Inductive completion (A : Type) :=
| Returns (a : A)
| Panics (p : panic).
Arguments Returns {A} a.
Arguments Panics {A} p.

(** [deck.parse] on the buffer of the deck: the buffer it leaves and the
    [error] it returns ([None] is [nil]).  Up to the formatting loop the
    buffer is not written. *)
Definition parse_buf (raw : bytes) : bytes * completion (option error) :=
  match decompressBytes raw with
  | Err e => (raw, Returns (Some e))
  | Panic p => (raw, Panics p)
  | Ok decompressed =>
      let parts := Split decompressed (B ";;;") in
      match second_part parts with
      | Err e => (raw, Returns (Some e))
      | Panic p => (raw, Panics p)
      | Ok tableText =>
          match readDelimitedBytes tableText (B ";;") readCard ([], 0) with
          | Err e => (raw, Returns (Some e))
          | Panic p => (raw, Panics p)
          | Ok (cards, longestCard) =>
              match readDelimitedBytes (default [] (parts !! 0%nat)) (B ",")
                                       (readIndex cards) (∅, []) with
              | Err e => (raw, Returns (Some e))
              | Panic p => (raw, Panics p)
              | Ok (cardIdxCountMap, uniqueCardList) =>
                  let uniqueCardList := SortFunc cardLess uniqueCardList in
                  let '(buf, err) := format_loop cardIdxCountMap uniqueCardList [] in
                  (buf, Returns err)
              end
          end
      end
  end.

Definition parse (d : deck) : completion (option error) * deck :=
  let '(buf', r) := parse_buf (buf d) in
  (r, {| buf := buf'; parseOnce := parseOnce d; parseRuns := S (parseRuns d) |}).

(** [sync.Once.Do]: the function runs if the flag is clear, and the flag is
    set when it has run, also when it panicked. *)
Definition Once_Do {A} (f : deck → completion A * deck) (d : deck)
  : option (completion A) * deck :=
  if parseOnce d then (None, d)
  else let '(r, d') := f d in
       (Some r, {| buf := buf d'; parseOnce := true; parseRuns := parseRuns d' |}).

(** [deck.Bytes].  The named result [err] is [nil] unless the function
    given to [Do] runs and assigns it. *)
Definition Bytes (d : deck) : completion (bytes * option error) * deck :=
  let '(ran, d') := Once_Do parse d in
  match ran with
  | None => (Returns (buf d', None), d')
  | Some (Returns err) => (Returns (buf d', err), d')
  | Some (Panics p) => (Panics p, d')
  end.


(** ** Descriptions used in the proofs *)

(** The fields the loops of [readDelimitedBytes] and
    [parseCommaDelimitedIntegerArray] cut out of what is left of [s]:
    up to each delimiter, and a last piece without one unless nothing is
    left after the last delimiter. *)
Fixpoint fields_loop (fuel : nat) (rest delim : bytes) : list bytes :=
  match fuel with
  | O => []
  | S fuel' =>
      match rest with
      | [] => []
      | _ :: _ =>
          match index_of rest delim with
          | None => [rest]
          | Some m => take m rest :: fields_loop fuel' (drop (m + length delim) rest) delim
          end
      end
  end.

Definition fields (s delim : bytes) : list bytes :=
  if bool_decide (s = B "-") then [] else fields_loop (S (length s)) s delim.

(** Running a callback over a list of fields, stopping at the first error. *)
Fixpoint foldM {St : Type} (cb : bytes → St → outcome St) (l : list bytes) (st : St)
  : outcome St :=
  match l with
  | [] => Ok st
  | val :: l' => st' ← cb val st; foldM cb l' st'
  end.

(** The order of the report as a relation. *)
Definition card_lt (i j : bytes) : Prop := cardLess i j = true.

(** One line of the report of [deck.parse]. *)
Definition report_line (cardIdxCountMap : gmap bytes Z) (card : bytes) : bytes :=
  card ++
  match cardIdxCountMap !! card with
  | Some cardCount =>
      if 0 <? cardCount then B " x" ++ FormatInt cardCount ++ [LF] else []
  | None => []
  end.

(** The result of [deck.Bytes] on a new deck holding [raw], as a value. *)
Definition bytePipeline (raw : bytes) : outcome bytes :=
  match (Bytes (newDeck raw)).1 with
  | Returns (res, None) => Ok res
  | Returns (_, Some e) => Err e
  | Panics p => Panic p
  end.


(** What holds of [cardIdxCountMap] and [uniqueCardList] while the indexes
    are read: the list has the keys of the map, each once, and every
    count is positive. *)
Definition counted (cardIdxCountMap : gmap bytes Z) (uniqueCardList : list bytes) : Prop :=
  NoDup uniqueCardList
  ∧ (∀ k, k ∈ uniqueCardList ↔ is_Some (cardIdxCountMap !! k))
  ∧ (∀ k v, cardIdxCountMap !! k = Some v → 0 < v).

(** An index the table has an entry for. *)
Definition in_table (cards : list bytes) (idx : Z) : Prop :=
  0 <= idx < len cards.

(** The placeholder of a symbol. *)
Definition placeholder (c : ascii) : bytes := ["&"%char; c].

(** A text without ampersand and without dollar sign: it holds no
    placeholder and, as a replacement template, stands for itself. *)
Definition plain (t : bytes) : Prop := ("&"%char ∉ t) ∧ ("$"%char ∉ t).

(** The symbols [escapeRegex] matches. *)
Definition in_class (c : ascii) : bool := regexp.mem c (B "-/\^$*+?.()|[]{}").

(** ** Inputs of the examples *)

Definition smallDeck : bytes :=
  B "card|junk||0,1,1,0,2,0;;;&01;&1;x;;&02;&1;y;;&03;&1;z".

Definition smallDeckReport : bytes :=
  B "card1 x3" ++ [LF] ++ B "card2 x2" ++ [LF] ++ B "card3 x1" ++ [LF].

Definition noSeparatorDeck : bytes :=
  B "||I love love slay the relics and slay the spire".

(** A dictionary of 89 one-letter words and an empty body. *)
Definition dictionaryOf89 : bytes := concat (replicate 88 (B "a|")) ++ B "a||".

Definition AscendersBane : bytes := B "Ascender's Bane".

Definition smallDeckCounts : gmap bytes Z :=
  {[ B "card1" := 3; B "card2" := 2; B "card3" := 1 ]}.

Definition threeKeys : list bytes := [B "Zebra"; B "Apple"; AscendersBane].

Definition threeCounts : gmap bytes Z :=
  {[ B "Zebra" := 1; B "Apple" := 20; AscendersBane := 3 ]}.

Definition strikeDefend : gmap bytes Z := {[ B "Strike" := 2; B "Defend" := 0 ]}.

(** A dictionary of 67 words: word 62 is <<X>>, word 66 is <<a&[b>>, the
    others are <<w>>; the body is the placeholder of word 66.  The symbols
    of the indexes 62 and 66 are the bracket and the percent sign. *)
Definition bracketDeck : bytes :=
  concat (replicate 62 (B "w|")) ++ B "X|w|w|w|a&[b||&%".

(** ** More of the program and of its tests *)

(** [bytes.Join], [strings.Join]: the pieces with [sep] between them. *)
Fixpoint Join (pieces : list bytes) (sep : bytes) : bytes :=
  match pieces with
  | [] => []
  | [piece] => piece
  | piece :: rest => piece ++ sep ++ Join rest sep
  end.

(** The callbacks the tests of deck_test.go give to [readDelimitedBytes]:
    the one of [TestReadDelemitedBytesSplitStringMultiCharDelim] appends
    every field to [result], the one of [TestReadDelemitedBytesIntArrs]
    parses the field and appends the integer. *)
Definition collectField : @delimCB (list bytes) :=
  λ val result, Ok (result ++ [val]).

Definition collectInt : @delimCB (list Z) :=
  λ val result, valInt ← ParseInt val; Ok (result ++ [valInt]).

(** How often the indexes of [d] name a table entry called [name]. *)
Definition occurrences (names : list bytes) (d : list Z) (name : bytes) : Z :=
  len (filter (λ idx, names !! Z.to_nat idx = Some name) d).

(** An encoded body, piece by piece: text without ampersand, and
    references to dictionary words. *)
Inductive token :=
| Text (t : bytes)
| Ref (i : nat).

(** [WILDCARDS[i]]. *)
Definition symbol (i : nat) : ascii := default "0"%char (WILDCARDS !! i).

(** A piece as it is written in the encoded body. *)
Definition written (tok : token) : bytes :=
  match tok with
  | Text t => t
  | Ref i => placeholder (symbol i)
  end.

(** A piece as it should read after decompression. *)
Definition resolved (compressionDict : list bytes) (tok : token) : bytes :=
  match tok with
  | Text t => t
  | Ref i => default [] (compressionDict !! i)
  end.

(** The pieces the decompressor is made for: a reference is to a word of the
    dictionary, by a symbol that [escapeRegex] does not match. *)
Definition well_formed (n : nat) (tok : token) : Prop :=
  match tok with
  | Text t => "&"%char ∉ t
  | Ref i => (i < n)%nat ∧ in_class (symbol i) = false
  end.

(** The body when the rounds of the indexes [m] and above are over. *)
Definition partly_resolved (compressionDict : list bytes) (m : nat) (tok : token)
  : bytes :=
  match tok with
  | Text t => t
  | Ref i => if decide (m ≤ i)%nat then default [] (compressionDict !! i)
             else placeholder (symbol i)
  end.

(** *** deck.go: the handler of GET /deck/:name

    [a.deckLists] maps a name to a pointer to a deck.  A pointer is a key
    of the store [decks], so that two names may stand for one deck.  The
    registry is filled with pointers to decks (<<&deck{buf: ...}>> in the
    handler test); a pointer without a deck in the store is no state of the
    program, and the handler is not defined on it.  The read lock is held
    for the lookup only.  The body of an error response,
    <<gin.H{"error": ...}>>, is kept as the message or the error value it
    is made from. *)
Record API := mkAPI {
  deckLists : gmap bytes nat;
  decks : gmap nat deck;
}.

Inductive response :=
| JSON (code : Z) (errorOf : bytes + error)
| Data (code : Z) (contentType : bytes) (data : bytes).

Section getDeckHandler.
Variable ToLower : bytes → bytes.   (* strings.ToLower *)

Definition getDeckHandler (a : API) (name : bytes)
  : option (completion response * API) :=
  let name := ToLower name in
  match deckLists a !! name with
  | None => Some (Returns (JSON 404 (inl (B "deck not found"))), a)
  | Some pointer =>
      d ← decks a !! pointer;
      let '(r, d') := Bytes d in
      let a' := {| deckLists := deckLists a; decks := <[pointer := d']> (decks a) |} in
      Some (match r with
            | Panics p => Panics p
            | Returns (resBts, Some err) => Returns (JSON 500 (inr err))
            | Returns (resBts, None) => Returns (Data 200 (B "text/plain") resBts)
            end, a')
  end.
End getDeckHandler.

(** The lower-casing of ASCII letters, for the examples. *)
Definition lowerASCII (c : ascii) : ascii :=
  let n := N_of_ascii c in
  if ((65 <=? n) && (n <=? 90))%N then ascii_of_N (n + 32) else c.

(** A registry with one deck, as the handler test builds it. *)
Definition oneDeck (raw : bytes) : API :=
  {| deckLists := {[ B "testdeck" := 0%nat ]}; decks := {[ 0%nat := newDeck raw ]} |}.

(** * Properties *)

(** * Properties *)

(** ** Slices, [Index] and [Split] *)

Lemma len_nonneg {A} (l : list A) : 0 <= len l.
Proof. unfold len. lia. Qed.

Lemma slice_prefix (s : bytes) (m : nat) : slice s 0 (Z.of_nat m) = take m s.
Proof. unfold slice. rewrite Z.sub_0_r, Nat2Z.id. reflexivity. Qed.

Lemma slice_suffix (s : bytes) (c : nat) : slice s (Z.of_nat c) (len s) = drop c s.
Proof.
  unfold slice, len. rewrite Nat2Z.id. apply take_ge.
  rewrite length_drop. lia.
Qed.

Lemma slice_between (s : bytes) (c m : nat) :
  slice s (Z.of_nat c) (Z.of_nat c + Z.of_nat m) = take m (drop c s).
Proof.
  unfold slice. rewrite Nat2Z.id.
  replace (Z.to_nat (Z.of_nat c + Z.of_nat m - Z.of_nat c)) with m by lia.
  reflexivity.
Qed.

Lemma HasPrefix_app (s prefix : bytes) :
  HasPrefix s prefix = true ↔ ∃ t, s = prefix ++ t.
Proof.
  revert s. induction prefix as [|p prefix IH]; intros s; simpl.
  - split; [intros _; by exists s | done].
  - destruct s as [|c s].
    + split; [done | intros [t Ht]; discriminate].
    + destruct (Ascii.eqb_spec p c) as [->|Hne].
      * rewrite IH. split; [intros [t ->]; by exists t | ].
        intros [t Ht]. simplify_eq/=. by eexists.
      * split; [done | intros [t Ht]; congruence].
Qed.

Lemma index_of_nil (sep : bytes) : sep ≠ [] → index_of [] sep = None.
Proof. destruct sep; [done | reflexivity]. Qed.

(** The first occurrence found by [index_of] is an occurrence. *)
Lemma index_of_Some (s sep : bytes) (m : nat) :
  index_of s sep = Some m → s = take m s ++ sep ++ drop (m + length sep) s.
Proof.
  revert m. induction s as [|c s IH]; intros m; simpl.
  - destruct (HasPrefix [] sep) eqn:Hp; [|done].
    intros [= <-]. apply HasPrefix_app in Hp as [t Ht].
    destruct sep; [done | discriminate].
  - destruct (HasPrefix (c :: s) sep) eqn:Hp.
    + intros [= <-]. apply HasPrefix_app in Hp as [t Ht].
      simpl. rewrite Ht at 1. f_equal. rewrite Ht.
      by rewrite drop_app_length.
    + destruct (index_of s sep) as [k|] eqn:Hk; [|done].
      simpl. intros [= <-]. simpl. f_equal. by apply IH.
Qed.

Lemma index_of_bound (s sep : bytes) (m : nat) :
  index_of s sep = Some m → (m + length sep ≤ length s)%nat.
Proof.
  revert m. induction s as [|c s IH]; intros m; simpl.
  - destruct (HasPrefix [] sep) eqn:Hp; [|done].
    intros [= <-]. apply HasPrefix_app in Hp as [t Ht].
    destruct sep; [simpl; lia | discriminate].
  - destruct (HasPrefix (c :: s) sep) eqn:Hp.
    + intros [= <-]. apply HasPrefix_app in Hp as [t Ht].
      apply (f_equal length) in Ht. rewrite length_app in Ht. simpl in *. lia.
    + destruct (index_of s sep) as [k|] eqn:Hk; [|done].
      simpl. intros [= <-]. specialize (IH k eq_refl). lia.
Qed.

(** No occurrence starts before the one found by [index_of]. *)
Lemma index_of_first (s sep : bytes) (m k : nat) :
  index_of s sep = Some m → (k < m)%nat → HasPrefix (drop k s) sep = false.
Proof.
  revert m k. induction s as [|c s IH]; intros m k; simpl.
  - destruct (HasPrefix [] sep); [intros [= <-]; lia | done].
  - destruct (HasPrefix (c :: s) sep) eqn:Hp; [intros [= <-]; lia|].
    destruct (index_of s sep) as [j|] eqn:Hj; [|done].
    simpl. intros [= <-] Hk. destruct k as [|k]; [done|].
    simpl. apply (IH j); [done | lia].
Qed.

Lemma index_of_None (s sep : bytes) (k : nat) :
  index_of s sep = None → HasPrefix (drop k s) sep = false.
Proof.
  revert k. induction s as [|c s IH]; intros k; simpl.
  - destruct (HasPrefix [] sep) eqn:Hp; [done|]. intros _. by rewrite drop_nil.
  - destruct (HasPrefix (c :: s) sep) eqn:Hp; [done|].
    destruct (index_of s sep) eqn:Hj; [done|]. intros _.
    destruct k; [done|]. simpl. by apply IH.
Qed.

Lemma Index_None (s sep : bytes) : index_of s sep = None → Index s sep = -1.
Proof. unfold Index. by intros ->. Qed.

Lemma Index_Some (s sep : bytes) (m : nat) :
  index_of s sep = Some m → Index s sep = Z.of_nat m.
Proof. unfold Index. by intros ->. Qed.

Lemma Index_ge (s sep : bytes) : -1 <= Index s sep.
Proof. unfold Index. destruct (index_of s sep); lia. Qed.

(** [genSplit] in terms of [index_of], [take] and [drop]. *)
Lemma genSplit_S (fuel : nat) (s sep : bytes) :
  genSplit (S fuel) s sep =
    match index_of s sep with
    | None => [s]
    | Some m => take m s :: genSplit fuel (drop (m + length sep) s) sep
    end.
Proof.
  simpl. unfold Index. destruct (index_of s sep) as [m|] eqn:Hm; [|done].
  destruct (Z.ltb_spec (Z.of_nat m) 0) as [?|_]; [lia|].
  rewrite slice_prefix. unfold len at 1. rewrite <- Nat2Z.inj_add.
  by rewrite slice_suffix.
Qed.

(** The fuel of [Split] is enough: more of it changes nothing. *)
Lemma genSplit_fuel (f1 f2 : nat) (s sep : bytes) :
  sep ≠ [] → (length s < f1)%nat → (length s < f2)%nat →
  genSplit f1 s sep = genSplit f2 s sep.
Proof.
  intros Hsep. revert f2 s. induction f1 as [|f1 IH]; intros f2 s H1 H2; [lia|].
  destruct f2 as [|f2]; [lia|]. rewrite !genSplit_S.
  destruct (index_of s sep) as [m|] eqn:Hm; [|done].
  f_equal. pose proof (index_of_bound _ _ _ Hm).
  assert (0 < length sep)%nat by (destruct sep; [done | simpl; lia]).
  apply IH; rewrite length_drop; lia.
Qed.

Lemma Split_no_sep (s sep : bytes) : Index s sep = -1 → Split s sep = [s].
Proof. unfold Split. simpl. by intros ->. Qed.

Lemma Split_length (s sep : bytes) : (1 ≤ length (Split s sep))%nat.
Proof. unfold Split. rewrite genSplit_S. destruct (index_of s sep); simpl; lia. Qed.

(** ** The loops over delimited fields *)

Lemma fields_loop_fuel (f1 f2 : nat) (s delim : bytes) :
  delim ≠ [] → (length s < f1)%nat → (length s < f2)%nat →
  fields_loop f1 s delim = fields_loop f2 s delim.
Proof.
  intros Hd. revert f2 s. induction f1 as [|f1 IH]; intros f2 s H1 H2; [lia|].
  destruct f2 as [|f2]; [lia|]. simpl.
  destruct s as [|c s]; [done|].
  destruct (index_of (c :: s) delim) as [m|] eqn:Hm; [|done].
  f_equal. pose proof (index_of_bound _ _ _ Hm).
  assert (0 < length delim)%nat by (destruct delim; [done | simpl; lia]).
  apply IH; rewrite length_drop; lia.
Qed.

Lemma readDelimitedBytes_guard (s : bytes) :
  (len s =? 0) || ((len s =? 1) && bool_decide (s !! 0%nat = Some "-"%char))
  = bool_decide (s = [] ∨ s = B "-").
Proof.
  destruct s as [|c [|c' s]].
  - by rewrite (bool_decide_eq_true_2 (_ ∨ _)) by (by left).
  - change (bool_decide (Some c = Some "-"%char) = bool_decide ([c] = [] ∨ [c] = B "-")).
    apply bool_decide_ext. split; [intros [= ->]; by right | by intros [?|[= ->]]].
  - rewrite (bool_decide_eq_false_2 (_ ∨ _)) by (by intros [?|?]).
    replace (len (c :: c' :: s) =? 1) with false
      by (symmetry; apply Z.eqb_neq; unfold len; simpl; lia).
    done.
Qed.

Section loops.
Context {St : Type} (cb : bytes → St → outcome St).

Lemma readDelimitedBytes_loop_end fuel s delim (currIndex : Z) st :
  len s <= currIndex →
  readDelimitedBytes_loop fuel s delim cb currIndex st = Ok st.
Proof.
  intros H. destruct fuel; simpl; [done|].
  destruct (Z.ltb_spec currIndex (len s)); [lia | done].
Qed.

(** The loop of [readDelimitedBytes] calls [cb] on the fields of what is
    left of [s], in order, until one call fails. *)
Lemma readDelimitedBytes_loop_fields fuel s delim (c : nat) st :
  readDelimitedBytes_loop fuel s delim cb (Z.of_nat c) st
  = foldM cb (fields_loop fuel (drop c s) delim) st.
Proof.
  revert c st. induction fuel as [|fuel IH]; intros c st; [done|].
  cbn [readDelimitedBytes_loop fields_loop].
  destruct (Z.ltb_spec (Z.of_nat c) (len s)) as [Hlt|Hge].
  - unfold len in Hlt.
    destruct (drop c s) as [|x rest] eqn:Hdrop.
    { apply (f_equal length) in Hdrop. rewrite length_drop in Hdrop.
      simpl in Hdrop. lia. }
    rewrite slice_suffix, Hdrop.
    destruct (index_of (x :: rest) delim) as [m|] eqn:Hm.
    + rewrite (Index_Some _ _ _ Hm).
      destruct (Z.ltb_spec (Z.of_nat c + Z.of_nat m) (Z.of_nat c)); [lia|].
      rewrite slice_between, Hdrop. cbn [foldM].
      destruct (cb (take m (x :: rest)) st) as [st'| |]; [|done..].
      cbn. unfold len. rewrite <- !Nat2Z.inj_add, IH.
      by rewrite <- Hdrop, drop_drop, Nat.add_assoc.
    + rewrite (Index_None _ _ Hm).
      destruct (Z.ltb_spec (Z.of_nat c + -1) (Z.of_nat c)); [|lia].
      rewrite slice_suffix, Hdrop. cbn [foldM].
      destruct (cb (x :: rest) st) as [st'| |]; [|done..].
      cbn. apply readDelimitedBytes_loop_end. pose proof (len_nonneg delim). lia.
  - rewrite drop_ge; [done | unfold len in Hge; lia].
Qed.

Lemma readDelimitedBytes_fields s delim st :
  readDelimitedBytes s delim cb st = foldM cb (fields s delim) st.
Proof.
  unfold readDelimitedBytes, fields. rewrite readDelimitedBytes_guard.
  destruct (decide (s = B "-")) as [->|Hdash]; [done|].
  rewrite (bool_decide_eq_false_2 (s = B "-")) by done.
  destruct (decide (s = [])) as [->|Hnil]; [done|].
  rewrite bool_decide_eq_false_2 by (by intros [?|?]).
  apply (readDelimitedBytes_loop_fields _ _ _ 0).
Qed.
End loops.

Lemma outcome_bind_assoc {A B C} (m : outcome A) (f : A → outcome B) (g : B → outcome C) :
  (m ≫= f) ≫= g = m ≫= (λ a, f a ≫= g).
Proof. by destruct m. Qed.

Lemma parseCommaDelimitedIntegerArray_loop_fields fuel s (c : nat) result :
  parseCommaDelimitedIntegerArray_loop fuel s (Z.of_nat c) result
  = vals ← mapM ParseInt (fields_loop fuel (drop c s) (B ",")); Ok (result ++ vals).
Proof.
  revert c result. induction fuel as [|fuel IH]; intros c result.
  { cbn. by rewrite app_nil_r. }
  cbn [parseCommaDelimitedIntegerArray_loop fields_loop].
  destruct (Z.ltb_spec (Z.of_nat c) (len s)) as [Hlt|Hge].
  - unfold len in Hlt.
    destruct (drop c s) as [|x rest] eqn:Hdrop.
    { apply (f_equal length) in Hdrop. rewrite length_drop in Hdrop.
      simpl in Hdrop. lia. }
    rewrite slice_suffix, Hdrop.
    destruct (index_of (x :: rest) (B ",")) as [m|] eqn:Hm.
    + rewrite (Index_Some _ _ _ Hm).
      destruct (Z.ltb_spec (Z.of_nat c + Z.of_nat m) (Z.of_nat c)); [lia|].
      rewrite slice_between, Hdrop. cbn [mapM].
      destruct (ParseInt (take m (x :: rest))) as [v| |]; [|done..].
      cbn. replace (Z.of_nat c + Z.of_nat m + 1) with (Z.of_nat (c + m + 1)) by lia.
      rewrite IH. rewrite <- Hdrop, drop_drop.
      replace (c + (m + 1))%nat with (c + m + 1)%nat by lia.
      change [","%char] with (B ",").
      destruct (mapM ParseInt _) as [vals| |]; [|done..].
      cbn. by rewrite <- app_assoc.
    + rewrite (Index_None _ _ Hm).
      destruct (Z.ltb_spec (Z.of_nat c + -1) (Z.of_nat c)); [|lia].
      rewrite slice_suffix, Hdrop. cbn [mapM].
      destruct (ParseInt (x :: rest)) as [v| |]; [|done..].
      cbn. destruct fuel; cbn; [done|].
      destruct (Z.ltb_spec (len s + 1) (len s)); [lia | done].
  - rewrite drop_ge by (unfold len in Hge; lia). cbn. by rewrite app_nil_r.
Qed.

Lemma parseCommaDelimitedIntegerArray_fields s :
  parseCommaDelimitedIntegerArray s = mapM ParseInt (fields s (B ",")).
Proof.
  unfold parseCommaDelimitedIntegerArray, fields.
  case_bool_decide; [done|].
  rewrite (parseCommaDelimitedIntegerArray_loop_fields _ _ 0). simpl drop.
  by destruct (mapM ParseInt _).
Qed.

(** [Split] and the field loop differ in one thing only: after a final
    delimiter [Split] has one more, empty, piece (and [Split] of the empty
    text is one empty piece). *)
Lemma genSplit_fields_loop fuel s sep :
  sep ≠ [] → (length s < fuel)%nat →
  Forall (λ piece, piece ≠ []) (genSplit fuel s sep) →
  fields_loop fuel s sep = genSplit fuel s sep.
Proof.
  intros Hsep. revert s. induction fuel as [|fuel IH]; intros s Hlen; [lia|].
  rewrite genSplit_S. cbn [fields_loop].
  destruct s as [|c s].
  { rewrite index_of_nil by done. by intros [? _]%Forall_cons. }
  destruct (index_of (c :: s) sep) as [m|] eqn:Hm; [|done].
  intros [_ Hrest]%Forall_cons. f_equal.
  pose proof (index_of_bound _ _ _ Hm).
  assert (0 < length sep)%nat by (destruct sep; [done | simpl; lia]).
  apply IH; [|done]. rewrite length_drop. simpl in *. lia.
Qed.

(** ** The loops of the regexp fragment run to their end *)

Lemma cut_dollar_length template before after :
  regexp.cut_dollar template = Some (before, after) →
  (length template = length before + 1 + length after)%nat.
Proof.
  revert before. induction template as [|c t IH]; intros before; simpl; [done|].
  destruct (Ascii.eqb c "$").
  - intros [= <- <-]. simpl. lia.
  - destruct (regexp.cut_dollar t) as [[b a]|]; [|done].
    cbn. intros [= <- <-]. rewrite (IH b eq_refl). simpl. lia.
Qed.

Lemma span_name_length s name rest :
  regexp.span_name s = (name, rest) → (length s = length name + length rest)%nat.
Proof.
  revert name rest. induction s as [|c s IH]; intros name rest; simpl.
  - by intros [= <- <-].
  - destruct (regexp.is_name_byte c).
    + destruct (regexp.span_name s) as [n r]. intros [= <- <-].
      rewrite (IH n r eq_refl). simpl. lia.
    + by intros [= <- <-].
Qed.

Lemma extract_length str name rest :
  regexp.extract str = Some (name, rest) → (length rest < length str)%nat.
Proof.
  unfold regexp.extract. destruct str as [|c str']; [done|].
  destruct (Ascii.eqb c "{").
  - destruct (regexp.span_name str') as [n r] eqn:Hspan.
    apply span_name_length in Hspan.
    destruct n as [|? n]; [done|]. destruct r as [|r0 r]; [done|].
    destruct (Ascii.eqb r0 "}"); [|done]. intros [= <- <-]. simpl in *. lia.
  - destruct (regexp.span_name (c :: str')) as [n r] eqn:Hspan.
    apply span_name_length in Hspan.
    destruct n as [|? n]; [done|]. intros [= <- <-]. simpl in *. lia.
Qed.

Lemma expand_loop_fuel f1 f2 template matched :
  (length template < f1)%nat → (length template < f2)%nat →
  regexp.expand_loop f1 template matched = regexp.expand_loop f2 template matched.
Proof.
  revert f2 template. induction f1 as [|f1 IH]; intros f2 template H1 H2; [lia|].
  destruct f2 as [|f2]; [lia|]. simpl.
  destruct (regexp.cut_dollar template) as [[before after]|] eqn:Hcut; [|done].
  apply cut_dollar_length in Hcut. f_equal.
  destruct after as [|c after']; [done|]. simpl in Hcut.
  destruct (Ascii.eqb c "$").
  { f_equal. apply IH; lia. }
  destruct (regexp.extract (c :: after')) as [[name rest]|] eqn:Hext.
  - apply extract_length in Hext. simpl in Hext. f_equal. apply IH; lia.
  - f_equal. apply IH; simpl; lia.
Qed.

Lemma find_class_bound members s m :
  regexp.find_class members s = Some m → (m < length s)%nat.
Proof.
  revert m. induction s as [|c s IH]; intros m; simpl; [done|].
  destruct (regexp.mem c members); [intros [= <-]; lia|].
  destruct (regexp.find_class members s) as [k|]; [|done].
  cbn. intros [= <-]. specialize (IH k eq_refl). lia.
Qed.

(** A match lies inside the text and, for an expression that is not the
    empty sequence of bytes, is not empty. *)
Lemma find_bound re s m n :
  re ≠ regexp.Literal [] →
  regexp.find re s = Some (m, n) → (m + n ≤ length s)%nat ∧ (0 < n)%nat.
Proof.
  intros Hre. destruct re as [members|lit]; simpl.
  - destruct (regexp.find_class members s) as [k|] eqn:Hk; [|done].
    cbn. intros [= <- <-]. apply find_class_bound in Hk. lia.
  - destruct (index_of s lit) as [k|] eqn:Hk; [|done].
    cbn. intros [= <- <-]. apply index_of_bound in Hk.
    split; [done|]. destruct lit; [done | simpl; lia].
Qed.

Lemma replaceAll_loop_fuel f1 f2 re src repl :
  re ≠ regexp.Literal [] →
  (length src < f1)%nat → (length src < f2)%nat →
  regexp.replaceAll_loop f1 re src repl = regexp.replaceAll_loop f2 re src repl.
Proof.
  intros Hre. revert f2 src. induction f1 as [|f1 IH]; intros f2 src H1 H2; [lia|].
  destruct f2 as [|f2]; [lia|]. simpl.
  destruct (regexp.find re src) as [[m n]|] eqn:Hfind; [|done].
  apply find_bound in Hfind as [Hmn Hn]; [|done].
  do 2 f_equal. apply IH; rewrite length_drop; lia.
Qed.

(** No expression of the matcher table is the empty sequence. *)
Lemma compressionWildcardRegex_nonempty i re :
  compressionWildcardRegex !! i = Some re → re ≠ regexp.Literal [].
Proof.
  intros Hre Hempty. subst re.
  assert (forallb (λ re, match re with regexp.Literal [] => false | _ => true end)
                  compressionWildcardRegex = true) as Hall by (by vm_compute).
  rewrite forallb_forall in Hall.
  assert (In (regexp.Literal []) compressionWildcardRegex) as Hin
    by (apply list_elem_of_In; by eapply list_elem_of_lookup_2).
  apply Hall in Hin. discriminate.
Qed.

(** ** Sorting *)

(** [SortFunc] with a comparison that is a strict total order, on a slice
    without repetitions. *)
Section SortFunc_order.
Context {A : Type} (less : A → A → bool).
Hypothesis less_irrefl : ∀ x, less x x = false.
Hypothesis less_trans : ∀ x y z, less x y = true → less y z = true → less x z = true.
Hypothesis less_total : ∀ x y, x ≠ y → less x y = false → less y x = true.

Let lt : relation A := λ x y, less x y = true.
Let gt : relation A := λ x y, less y x = true.

Lemma insert_back_Permutation x sorted_rev :
  insert_back less x sorted_rev ≡ₚ x :: sorted_rev.
Proof.
  induction sorted_rev as [|y p IH]; simpl; [done|].
  destruct (less x y); [|done]. rewrite IH. apply Permutation_swap.
Qed.

Lemma insert_back_sorted x sorted_rev :
  x ∉ sorted_rev →
  StronglySorted gt sorted_rev → StronglySorted gt (insert_back less x sorted_rev).
Proof.
  induction sorted_rev as [|y p IH]; simpl; intros Hx Hs.
  { repeat constructor. }
  apply StronglySorted_inv in Hs as [Hp Hy].
  apply not_elem_of_cons in Hx as [Hxy Hx].
  destruct (less x y) eqn:Hless.
  - constructor; [by apply IH|].
    rewrite insert_back_Permutation. by constructor.
  - assert (less y x = true) as Hyx by (by apply less_total).
    constructor; [by constructor|].
    constructor; [done|].
    eapply Forall_impl; [exact Hy|]. intros z Hz. unfold gt in *. eauto.
Qed.

Lemma foldl_insert_back l acc :
  NoDup (acc ++ l) → StronglySorted gt acc →
  let acc' := foldl (λ sorted_rev x, insert_back less x sorted_rev) acc l in
  StronglySorted gt acc' ∧ acc' ≡ₚ acc ++ l.
Proof.
  revert acc. induction l as [|x l IH]; intros acc Hnd Hs; simpl.
  { by rewrite app_nil_r. }
  assert (NoDup (insert_back less x acc ++ l)) as Hnd'.
  { rewrite insert_back_Permutation. simpl.
    by rewrite Permutation_middle. }
  assert (x ∉ acc) as Hx.
  { apply NoDup_app in Hnd as (_ & Hnd & _). intros Hin.
    apply (Hnd x Hin). by left. }
  destruct (IH (insert_back less x acc) Hnd' (insert_back_sorted _ _ Hx Hs))
    as [Hs' Hp].
  split; [done|]. rewrite Hp, insert_back_Permutation. simpl.
  apply Permutation_middle.
Qed.

Lemma StronglySorted_reverse (l : list A) :
  StronglySorted gt l → StronglySorted lt (reverse l).
Proof.
  induction 1 as [|x l Hl IH Hx]; [constructor|].
  rewrite reverse_cons. apply StronglySorted_app_2.
  - intros x1 x2 Hx1 ->%list_elem_of_singleton.
    rewrite elem_of_reverse in Hx1.
    rewrite Forall_forall in Hx. by apply Hx.
  - done.
  - repeat constructor.
Qed.

Lemma SortFunc_Permutation l : NoDup l → SortFunc less l ≡ₚ l.
Proof.
  intros Hnd. unfold SortFunc. rewrite reverse_Permutation.
  apply (foldl_insert_back l []); [done | constructor].
Qed.

Lemma SortFunc_sorted l : NoDup l → StronglySorted lt (SortFunc less l).
Proof.
  intros Hnd. apply StronglySorted_reverse.
  apply (foldl_insert_back l []); [done | constructor].
Qed.

(** Every sorted arrangement of the same distinct elements is the one
    [SortFunc] computes: the procedure behind [slices.SortFunc] does not
    matter. *)
Lemma SortFunc_unique l sorted :
  NoDup l → sorted ≡ₚ l → StronglySorted lt sorted → sorted = SortFunc less l.
Proof.
  intros Hnd Hp Hs.
  apply (StronglySorted_unique_strong lt); [|done|by apply SortFunc_sorted|].
  - intros x1 x2 _ _ H12 H21. unfold lt in *.
    pose proof (less_trans _ _ _ H12 H21) as Hxx.
    rewrite less_irrefl in Hxx. done.
  - by rewrite Hp, SortFunc_Permutation.
Qed.

Lemma SortFunc_perm_eq l1 l2 :
  NoDup l1 → l1 ≡ₚ l2 → SortFunc less l1 = SortFunc less l2.
Proof.
  intros Hnd Hp. apply SortFunc_unique.
  - by rewrite <- Hp.
  - by rewrite SortFunc_Permutation.
  - by apply SortFunc_sorted.
Qed.
End SortFunc_order.

(** The comparison of byte sequences is the lexicographic order. *)
Lemma bytes_ltb_irrefl x : bytes_ltb x x = false.
Proof. induction x as [|a x IH]; simpl; [done|]. by rewrite N.ltb_irrefl. Qed.

Lemma N_of_ascii_inj a b : N_of_ascii a = N_of_ascii b → a = b.
Proof.
  intros H. rewrite <- (ascii_N_embedding a), <- (ascii_N_embedding b). by rewrite H.
Qed.

Lemma bytes_ltb_trans x y z :
  bytes_ltb x y = true → bytes_ltb y z = true → bytes_ltb x z = true.
Proof.
  revert y z. induction x as [|a x IH]; intros [|b y] [|c z]; simpl; try done.
  destruct (N.ltb_spec (N_of_ascii a) (N_of_ascii b)),
           (N.ltb_spec (N_of_ascii b) (N_of_ascii a)),
           (N.ltb_spec (N_of_ascii b) (N_of_ascii c)),
           (N.ltb_spec (N_of_ascii c) (N_of_ascii b)),
           (N.ltb_spec (N_of_ascii a) (N_of_ascii c)),
           (N.ltb_spec (N_of_ascii c) (N_of_ascii a));
    try done; try lia.
  apply IH.
Qed.

Lemma bytes_ltb_total x y : x ≠ y → bytes_ltb x y = false → bytes_ltb y x = true.
Proof.
  revert y. induction x as [|a x IH]; intros [|b y]; simpl; try done.
  destruct (N.ltb_spec (N_of_ascii a) (N_of_ascii b)),
           (N.ltb_spec (N_of_ascii b) (N_of_ascii a)); try done; try lia.
  assert (a = b) as -> by (apply N_of_ascii_inj; lia).
  intros Hne. apply IH. congruence.
Qed.

Lemma cardLess_irrefl x : cardLess x x = false.
Proof.
  unfold cardLess. case_bool_decide; [done|]. apply bytes_ltb_irrefl.
Qed.

Lemma cardLess_trans x y z :
  cardLess x y = true → cardLess y z = true → cardLess x z = true.
Proof.
  unfold cardLess. repeat case_bool_decide; try done. apply bytes_ltb_trans.
Qed.

Lemma cardLess_total x y : x ≠ y → cardLess x y = false → cardLess y x = true.
Proof.
  unfold cardLess. repeat case_bool_decide; simplify_eq; try done.
  apply bytes_ltb_total.
Qed.


Lemma SortFunc_cardLess_Permutation keys :
  NoDup keys → SortFunc cardLess keys ≡ₚ keys.
Proof. apply SortFunc_Permutation; [apply cardLess_trans | apply cardLess_total]. Qed.

Lemma SortFunc_cardLess_sorted keys :
  NoDup keys → StronglySorted card_lt (SortFunc cardLess keys).
Proof. apply SortFunc_sorted; [apply cardLess_trans | apply cardLess_total]. Qed.

Lemma SortFunc_cardLess_perm_eq keys1 keys2 :
  NoDup keys1 → keys1 ≡ₚ keys2 → SortFunc cardLess keys1 = SortFunc cardLess keys2.
Proof.
  apply SortFunc_perm_eq;
    [apply cardLess_irrefl | apply cardLess_trans | apply cardLess_total].
Qed.

(** ** Reading the table and the indexes *)

Lemma parseCardBytes_parseCard cardSection :
  parseCardBytes cardSection = parseCard cardSection.
Proof. reflexivity. Qed.

Lemma parseCard_nil : parseCard [] = [].
Proof. reflexivity. Qed.

Lemma foldM_readCard entries cards longestCard :
  ∃ longestCard',
    foldM readCard entries (cards, longestCard) = Ok (cards ++ entries, longestCard').
Proof.
  revert cards longestCard. induction entries as [|e entries IH]; intros cards l; simpl.
  - exists l. by rewrite app_nil_r.
  - destruct (IH (cards ++ [e]) (if l <? len e then len e else l)) as [l' Hl'].
    exists l'. cbn. rewrite Hl'. by rewrite <- app_assoc.
Qed.

Lemma bounds_check_true cards idx :
  (idx <? 0) || (len cards <=? idx) = true ↔ ¬ in_table cards idx.
Proof.
  unfold in_table. rewrite orb_true_iff, Z.ltb_lt, Z.leb_le. lia.
Qed.

Lemma bounds_check_false cards idx :
  (idx <? 0) || (len cards <=? idx) = false ↔ in_table cards idx.
Proof.
  unfold in_table. rewrite orb_false_iff, Z.ltb_ge, Z.leb_gt. lia.
Qed.

(** One call of the index callback, case by case. *)
Lemma readIndex_syntax cards val st e :
  ParseInt val = Err e → readIndex cards val st = Err e.
Proof. destruct st. unfold readIndex. by intros ->. Qed.

Lemma readIndex_out_of_range cards val st idx :
  ParseInt val = Ok idx → ¬ in_table cards idx →
  readIndex cards val st = Err ErrCardIndexOutOfBounds.
Proof.
  destruct st. unfold readIndex. intros -> H%bounds_check_true. cbn. by rewrite H.
Qed.

Lemma readIndex_in_table cards val m u idx :
  ParseInt val = Ok idx → in_table cards idx →
  let name := parseCard (default [] (cards !! Z.to_nat idx)) in
  readIndex cards val (m, u) =
    if decide (name = []) then Ok (m, u)
    else Ok (<[name := default 0 (m !! name) + 1]> m,
             if decide (is_Some (m !! name)) then u else u ++ [name]).
Proof.
  unfold readIndex. intros -> H%bounds_check_false. cbn. rewrite H.
  rewrite parseCardBytes_parseCard.
  destruct (parseCard _) as [|c name] eqn:Hname; [done|].
  replace (len (c :: name) =? 0) with false
    by (symmetry; apply Z.eqb_neq; unfold len; simpl; lia).
  rewrite decide_False by done.
  by destruct (m !! (c :: name)) as [ct|] eqn:Hct.
Qed.

Lemma ParseInt_no_panic val p : ParseInt val ≠ Panic p.
Proof.
  unfold ParseInt. destruct val as [|c val]; [done|]. cbn zeta.
  destruct (ParseUint _) as [un|[]]; try done.
  repeat case_match; done.
Qed.

Lemma counted_empty : counted ∅ [].
Proof.
  split; [constructor|]. split.
  - intros k. rewrite lookup_empty. split; [by intros ?%elem_of_nil | by intros [??]].
  - intros k v. by rewrite lookup_empty.
Qed.

Lemma counted_step m u name :
  counted m u →
  counted (<[name := default 0 (m !! name) + 1]> m)
          (if decide (is_Some (m !! name)) then u else u ++ [name]).
Proof.
  intros (Hnd & Hkeys & Hpos). split; [|split].
  - case_decide as Hin; [done|].
    apply NoDup_app. split; [done|]. split; [|apply NoDup_singleton].
    intros k Hk ->%list_elem_of_singleton. apply Hin. by apply Hkeys.
  - intros k. rewrite lookup_insert. destruct (decide (name = k)) as [<-|Hk].
    + split; [eauto|]. intros _.
      case_decide as Hin; [by apply Hkeys|].
      apply elem_of_app. right. by left.
    + specialize (Hkeys k). case_decide; [done|].
      rewrite elem_of_app, list_elem_of_singleton. intuition congruence.
  - intros k v. rewrite lookup_insert. destruct (decide (name = k)) as [<-|Hk];
      [|by apply Hpos].
    intros [= <-]. destruct (m !! name) as [ct|] eqn:Hct; simpl; [|lia].
    apply Hpos in Hct. lia.
Qed.

Lemma readIndex_counted cards val m u m' u' :
  readIndex cards val (m, u) = Ok (m', u') → counted m u → counted m' u'.
Proof.
  intros Hcb Hinv.
  destruct (ParseInt val) as [idx|e|p] eqn:Hparse.
  - destruct (decide (in_table cards idx)) as [Hin|Hout].
    + rewrite (readIndex_in_table _ _ _ _ _ Hparse Hin) in Hcb. cbn zeta in Hcb.
      case_decide; simplify_eq; [done|]. by apply counted_step.
    + by rewrite (readIndex_out_of_range _ _ _ _ Hparse Hout) in Hcb.
  - by rewrite (readIndex_syntax _ _ _ _ Hparse) in Hcb.
  - by apply ParseInt_no_panic in Hparse.
Qed.

Lemma foldM_readIndex_counted cards l m u m' u' :
  foldM (readIndex cards) l (m, u) = Ok (m', u') → counted m u → counted m' u'.
Proof.
  revert m u. induction l as [|val l IH]; intros m u; cbn [foldM].
  - by intros [= -> ->].
  - destruct (readIndex cards val (m, u)) as [[m1 u1]| |] eqn:Hcb; [|done..].
    cbn. intros Hrest Hinv. eapply IH; [done|]. by eapply readIndex_counted.
Qed.

(** The first field that is an index without an entry in the table ends the
    reading with "card index out of bounds", when the fields before it are
    indexes the table has. *)
Lemma foldM_readIndex_out_of_range cards pre val post st idx :
  Forall (λ f, ∃ i, ParseInt f = Ok i ∧ in_table cards i) pre →
  ParseInt val = Ok idx → ¬ in_table cards idx →
  foldM (readIndex cards) (pre ++ val :: post) st = Err ErrCardIndexOutOfBounds.
Proof.
  intros Hpre Hval Hout. revert st.
  induction Hpre as [|f pre (i & Hi & Hin) _ IH]; intros [m u]; cbn [foldM app].
  - by rewrite (readIndex_out_of_range _ _ _ _ Hval Hout).
  - rewrite (readIndex_in_table _ _ _ _ _ Hi Hin). cbn zeta.
    case_decide; cbn; apply IH.
Qed.

(** The loop of [decompressDeck] on a list with an index the table has no
    entry for. *)
Lemma decompressDeck_loop_out_of_range cards d deckDict :
  Exists (λ idx, ¬ in_table cards idx) d →
  decompressDeck_loop cards d deckDict = Err ErrCardIndexOutOfBounds.
Proof.
  revert deckDict. induction d as [|idx d IH]; intros deckDict Hex; simpl.
  - by apply Exists_nil in Hex.
  - destruct ((idx <? 0) || (len cards <=? idx)) eqn:Hb; [done|].
    apply bounds_check_false in Hb. apply IH.
    apply Exists_cons in Hex as [?|?]; done.
Qed.

Lemma decompressDeck_loop_in_table cards d deckDict :
  Forall (in_table cards) d → ∃ m, decompressDeck_loop cards d deckDict = Ok m.
Proof.
  intros Hall. revert deckDict.
  induction Hall as [|idx d Hin _ IH]; intros deckDict; simpl; [eauto|].
  apply bounds_check_false in Hin. rewrite Hin. apply IH.
Qed.

(** ** The two aggregations agree

    [names] is the table of the string pipeline, [cards] the table of the
    byte pipeline; they have the same entries and no entry has an empty
    name. *)
Lemma aggregations_agree cards fieldsList m u :
  Forall (λ name, name ≠ []) (parseCards cards) →
  counted m u →
  match foldM (readIndex cards) fieldsList (m, u) with
  | Ok (m', u') =>
      (d ← mapM ParseInt fieldsList; decompressDeck_loop (parseCards cards) d m) = Ok m'
      ∧ counted m' u'
  | _ => fails (d ← mapM ParseInt fieldsList; decompressDeck_loop (parseCards cards) d m)
  end.
Proof.
  intros Hnames. revert m u.
  induction fieldsList as [|val l IH]; intros m u Hinv; [done|].
  cbn [foldM mapM].
  destruct (ParseInt val) as [idx|e|p] eqn:Hparse.
  - destruct (decide (in_table cards idx)) as [Hin|Hout].
    + rewrite (readIndex_in_table _ _ _ _ _ Hparse Hin). cbn zeta.
      assert (parseCards cards !! Z.to_nat idx
              = Some (parseCard (default [] (cards !! Z.to_nat idx)))) as Hname.
      { unfold parseCards. rewrite list_lookup_fmap.
        destruct (lookup_lt_is_Some_2 cards (Z.to_nat idx)) as [entry ->]; [|done].
        unfold in_table, len in Hin. lia. }
      rewrite decide_False
        by (rewrite Forall_forall in Hnames; apply Hnames;
            by eapply list_elem_of_lookup_2).
      set (name := parseCard _) in *.
      specialize (IH (<[name := default 0 (m !! name) + 1]> m) _
                     (counted_step m u name Hinv)).
      cbn. destruct (foldM _ l _) as [[m' u']| |];
        destruct (mapM ParseInt l) as [d| |]; cbn in *; try done;
        assert (len (parseCards cards) = len cards) as Hlen
          by (unfold len, parseCards; by rewrite length_map);
        rewrite Hlen; apply bounds_check_false in Hin; rewrite Hin;
        by rewrite Hname.
    + rewrite (readIndex_out_of_range _ _ _ _ Hparse Hout). cbn.
      destruct (mapM ParseInt l) as [d| |]; cbn; try done.
      assert (len (parseCards cards) = len cards) as Hlen
          by (unfold len, parseCards; by rewrite length_map).
      rewrite Hlen. apply bounds_check_true in Hout. by rewrite Hout.
  - by rewrite (readIndex_syntax _ _ _ _ Hparse).
  - by apply ParseInt_no_panic in Hparse.
Qed.

(** ** The formatting loop *)

Lemma report_line_Some m k count :
  m !! k = Some count →
  report_line m k = k ++ (if 0 <? count then B " x" ++ FormatInt count ++ [LF] else []).
Proof. unfold report_line. by intros ->. Qed.

Lemma format_loop_found m keys buf :
  Forall (λ k, is_Some (m !! k)) keys →
  format_loop m keys buf = (buf ++ concat (map (report_line m) keys), None).
Proof.
  intros Hall. revert buf.
  induction Hall as [|k keys [count Hk] _ IH]; intros buf;
    cbn [format_loop map concat].
  - by rewrite app_nil_r.
  - rewrite Hk, IH, (report_line_Some _ _ _ Hk). f_equal.
    destruct (0 <? count); by rewrite <- ?app_assoc, ?app_nil_r.
Qed.

Lemma format_loop_not_found m pre k post buf :
  Forall (λ k, is_Some (m !! k)) pre → m !! k = None →
  format_loop m (pre ++ k :: post) buf
  = (buf ++ concat (map (report_line m) pre) ++ k, Some ErrCardNotFound).
Proof.
  intros Hall Hk. revert buf.
  induction Hall as [|k' pre [count Hk'] _ IH]; intros buf;
    cbn [format_loop map concat app].
  - by rewrite Hk.
  - rewrite Hk', IH, (report_line_Some _ _ _ Hk'). f_equal.
    destruct (0 <? count); by rewrite <- ?app_assoc, ?app_nil_r.
Qed.

Lemma report_line_positive m k count :
  m !! k = Some count → 0 < count →
  report_line m k = k ++ B " x" ++ FormatInt count ++ [LF].
Proof.
  intros Hk Hpos. unfold report_line. rewrite Hk.
  by destruct (Z.ltb_spec 0 count); [|lia].
Qed.

Lemma report_line_not_positive m k count :
  m !! k = Some count → count <= 0 → report_line m k = k.
Proof.
  intros Hk Hpos. unfold report_line. rewrite Hk.
  destruct (Z.ltb_spec 0 count); [lia|]. by rewrite app_nil_r.
Qed.

Lemma foldl_app_concat {A} (f : A → bytes) (l : list A) (acc : bytes) :
  foldl (λ result k, result ++ f k) acc l = acc ++ concat (map f l).
Proof.
  revert acc. induction l as [|x l IH]; intros acc; simpl.
  - by rewrite app_nil_r.
  - by rewrite IH, <- app_assoc.
Qed.

Lemma getStableOutput_from_concat keys countMap :
  getStableOutput_from keys countMap
  = concat (map (λ k, k ++ B " x" ++ FormatInt (default 0 (countMap !! k)) ++ [LF])
                (SortFunc cardLess keys)).
Proof. unfold getStableOutput_from. by rewrite foldl_app_concat. Qed.

(** ** [deck.Bytes] and the once-only gate *)

Lemma Bytes_done d :
  parseOnce d = true → Bytes d = (Returns (buf d, None), d).
Proof. unfold Bytes, Once_Do. by intros ->. Qed.

Lemma Bytes_first d :
  parseOnce d = false →
  Bytes d =
    let '(buf', r) := parse_buf (buf d) in
    let d' := {| buf := buf'; parseOnce := true; parseRuns := S (parseRuns d) |} in
    (match r with
     | Returns err => Returns (buf', err)
     | Panics p => Panics p
     end, d').
Proof.
  unfold Bytes, Once_Do, parse. intros ->.
  destruct (parse_buf (buf d)) as [buf' [err|p]]; done.
Qed.

Lemma Bytes_sets_done d : parseOnce (Bytes d).2 = true.
Proof.
  destruct (parseOnce d) eqn:Hd.
  - by rewrite Bytes_done.
  - rewrite Bytes_first by done. by destruct (parse_buf (buf d)) as [? [?|?]].
Qed.

Lemma Bytes_result_buf d res err :
  (Bytes d).1 = Returns (res, err) → res = buf (Bytes d).2.
Proof.
  destruct (parseOnce d) eqn:Hd.
  - rewrite Bytes_done by done. simpl. by intros [= <- <-].
  - rewrite Bytes_first by done. destruct (parse_buf (buf d)) as [? [?|?]]; simpl; congruence.
Qed.

Lemma Bytes_parseRuns d :
  parseRuns (Bytes d).2 = if parseOnce d then parseRuns d else S (parseRuns d).
Proof.
  destruct (parseOnce d) eqn:Hd.
  - by rewrite Bytes_done.
  - rewrite Bytes_first by done. by destruct (parse_buf (buf d)) as [? [?|?]].
Qed.



Lemma bind_Ok {A C} (a : A) (f : A → outcome C) : Ok a ≫= f = f a.
Proof. reflexivity. Qed.

Lemma bind_Err {A C} (e : error) (f : A → outcome C) : Err e ≫= f = Err e.
Proof. reflexivity. Qed.

Lemma bind_Panic {A C} (p : panic) (f : A → outcome C) : Panic p ≫= f = Panic p.
Proof. reflexivity. Qed.

Lemma decompress_decompressBytes s : decompress s = decompressBytes s.
Proof. reflexivity. Qed.

Lemma mapM_ParseInt_Err l e :
  mapM ParseInt l = Err e → ∃ num k, e = NumError num k.
Proof.
  induction l as [|val l IH]; cbn; [done|].
  destruct (ParseInt val) as [v|e'|p] eqn:Hv; cbn.
  - destruct (mapM ParseInt l); cbn; [done| |done]. intros [= <-]. by apply IH.
  - intros [= <-]. unfold ParseInt in Hv. destruct val as [|c val]; [naive_solver|].
    cbn zeta in Hv. destruct (ParseUint _) as [un|[]]; [|naive_solver..].
    repeat case_match; naive_solver.
  - done.
Qed.

Lemma mapM_ParseInt_no_panic l p : mapM ParseInt l ≠ Panic p.
Proof.
  induction l as [|val l IH]; cbn; [done|].
  destruct (ParseInt val) as [v|e'|p'] eqn:Hv; cbn; [|done|].
  - destruct (mapM ParseInt l); cbn; done.
  - by apply ParseInt_no_panic in Hv.
Qed.

(** ** Placeholders the decompressor resolves

    What the descending loop does for symbols outside the class of
    [escapeRegex] and words that are plain. *)

(** The matcher table, symbol by symbol. *)
Lemma compressionWildcardRegex_spec :
  compressionWildcardRegex
  = (λ c, regexp.Literal (if in_class c then B "&$&" else placeholder c)) <$> WILDCARDS.
Proof. by vm_compute. Qed.

Lemma WILDCARDS_NoDup : NoDup WILDCARDS.
Proof. apply (bool_decide_unpack _). by vm_compute. Qed.

Lemma WILDCARDS_no_ampersand c : c ∈ WILDCARDS → c ≠ "&"%char.
Proof.
  intros Hin ->. revert Hin. apply (bool_decide_unpack _). by vm_compute.
Qed.

Lemma matcher_lookup m c :
  WILDCARDS !! m = Some c →
  compressionWildcardRegex !! m
  = Some (regexp.Literal (if in_class c then B "&$&" else placeholder c)).
Proof.
  intros Hc. by rewrite compressionWildcardRegex_spec, list_lookup_fmap, Hc.
Qed.

Lemma HasPrefix_head_ne c x t rest : c ≠ x → HasPrefix (x :: t) (c :: rest) = false.
Proof. intros Hne. simpl. by destruct (Ascii.eqb_spec c x). Qed.

Lemma index_of_here s sep : HasPrefix s sep = true → index_of s sep = Some 0%nat.
Proof. intros H. destruct s; simpl; by rewrite H. Qed.

Lemma index_of_later x t sep :
  HasPrefix (x :: t) sep = false → index_of (x :: t) sep = S <$> index_of t sep.
Proof. intros H. cbn [index_of]. by rewrite H. Qed.

Lemma index_of_no_head c rest text : c ∉ text → index_of text (c :: rest) = None.
Proof.
  induction text as [|x text IH]; intros Hc; [done|].
  apply not_elem_of_cons in Hc as [Hne Hc].
  cbn [index_of]. rewrite HasPrefix_head_ne by done. by rewrite IH.
Qed.

Lemma index_of_app_no_head c rest pre t :
  c ∉ pre → index_of (pre ++ t) (c :: rest) = (λ n, length pre + n)%nat <$> index_of t (c :: rest).
Proof.
  induction pre as [|x pre IH]; intros Hc.
  - simpl. by destruct (index_of t (c :: rest)).
  - apply not_elem_of_cons in Hc as [Hne Hc].
    cbn [app index_of]. rewrite HasPrefix_head_ne by done. rewrite IH by done.
    by destruct (index_of t (c :: rest)).
Qed.

(** A text with one placeholder and no other ampersand. *)
Lemma index_of_placeholder_same pre x post :
  "&"%char ∉ pre →
  index_of (pre ++ placeholder x ++ post) (placeholder x) = Some (length pre).
Proof.
  intros Hpre. unfold placeholder. rewrite index_of_app_no_head by done.
  rewrite index_of_here; [cbn; f_equal; lia|].
  cbn [HasPrefix app]. by rewrite !Ascii.eqb_refl.
Qed.

Lemma index_of_placeholder_other pre x y post :
  "&"%char ∉ pre → "&"%char ∉ post → x ≠ "&"%char → y ≠ x →
  index_of (pre ++ placeholder x ++ post) (placeholder y) = None.
Proof.
  intros Hpre Hpost Hx Hy. unfold placeholder. rewrite index_of_app_no_head by done.
  cbn [app]. rewrite index_of_later.
  - rewrite index_of_no_head; [done|].
    apply not_elem_of_cons. split; [by intros <- | done].
  - cbn [HasPrefix]. rewrite Ascii.eqb_refl. by destruct (Ascii.eqb_spec y x).
Qed.

Lemma index_of_placeholder_class pre x post :
  "&"%char ∉ pre → "&"%char ∉ post → x ≠ "&"%char →
  index_of (pre ++ placeholder x ++ post) (B "&$&") = None.
Proof.
  intros Hpre Hpost Hx. unfold placeholder.
  change (B "&$&") with ["&"%char; "$"%char; "&"%char].
  rewrite index_of_app_no_head by done.
  cbn [app]. rewrite index_of_later.
  - rewrite index_of_no_head; [done|].
    apply not_elem_of_cons. split; [by intros <- | done].
  - cbn [HasPrefix]. rewrite Ascii.eqb_refl.
    destruct (Ascii.eqb "$" x); [|done].
    destruct post as [|p post]; [done|].
    apply not_elem_of_cons in Hpost as [Hne _].
    by destruct (Ascii.eqb_spec "&" p).
Qed.

Lemma cut_dollar_None template : "$"%char ∉ template → regexp.cut_dollar template = None.
Proof.
  induction template as [|c t IH]; intros Hc; [done|].
  apply not_elem_of_cons in Hc as [Hne Hc]. simpl.
  destruct (Ascii.eqb_spec c "$") as [->|_]; [done|]. by rewrite IH.
Qed.

(** A word without dollar sign is its own expansion. *)
Lemma expand_no_dollar template matched :
  "$"%char ∉ template → regexp.expand template matched = template.
Proof.
  intros Hc. unfold regexp.expand. simpl. by rewrite cut_dollar_None.
Qed.

Lemma replaceAll_loop_no_match fuel lit src repl :
  index_of src lit = None →
  regexp.replaceAll_loop fuel (regexp.Literal lit) src repl = src.
Proof. intros Hnone. destruct fuel; simpl; [done|]. by rewrite Hnone. Qed.

Lemma ReplaceAll_no_match lit src repl :
  index_of src lit = None → regexp.ReplaceAll (regexp.Literal lit) src repl = src.
Proof. apply replaceAll_loop_no_match. Qed.

(** One placeholder, replaced by a word without dollar sign. *)
Lemma ReplaceAll_placeholder pre x post word :
  "&"%char ∉ pre → "&"%char ∉ post → "$"%char ∉ word →
  regexp.ReplaceAll (regexp.Literal (placeholder x)) (pre ++ placeholder x ++ post) word
  = pre ++ word ++ post.
Proof.
  intros Hpre Hpost Hword. unfold regexp.ReplaceAll.
  cbn [regexp.replaceAll_loop regexp.find].
  rewrite index_of_placeholder_same by done. cbn [fmap option_fmap option_map].
  rewrite take_app_length, drop_app_length.
  change (take (length (placeholder x)) (placeholder x ++ post)) with (placeholder x).
  rewrite (expand_no_dollar _ _ Hword). do 2 f_equal.
  rewrite drop_app_add'; [|done].
  change (drop (length (placeholder x)) (placeholder x ++ post)) with post.
  apply replaceAll_loop_no_match. by apply index_of_no_head.
Qed.

(** Rounds of the loop that find nothing to replace. *)
Lemma decompress_loop_skip compressionDict n lo text :
  (lo ≤ n)%nat → (n ≤ 88)%nat →
  (∀ m c, (lo ≤ m < n)%nat → WILDCARDS !! m = Some c →
          index_of text (if in_class c then B "&$&" else placeholder c) = None) →
  decompress_loop compressionDict n text = decompress_loop compressionDict lo text.
Proof.
  intros Hlo. induction Hlo as [|n Hlo IH]; intros Hn Hnone; [done|].
  destruct (lookup_lt_is_Some_2 WILDCARDS n) as [c Hc]; [by vm_compute; lia|].
  cbn [decompress_loop]. rewrite (matcher_lookup _ _ Hc).
  rewrite ReplaceAll_no_match by (apply (Hnone n c); [lia | done]).
  apply IH; [lia|]. intros m c' Hm. apply Hnone. lia.
Qed.

Lemma decompress_loop_step compressionDict m c word text :
  WILDCARDS !! m = Some c → in_class c = false → compressionDict !! m = Some word →
  decompress_loop compressionDict (S m) text
  = decompress_loop compressionDict m
      (regexp.ReplaceAll (regexp.Literal (placeholder c)) text word).
Proof.
  intros Hc Hclass Hword. cbn [decompress_loop].
  by rewrite (matcher_lookup _ _ Hc), Hclass, Hword.
Qed.

Lemma decompress_loop_no_ampersand compressionDict n text :
  (n ≤ 88)%nat → "&"%char ∉ text → decompress_loop compressionDict n text = Ok text.
Proof.
  intros Hn Htext. rewrite (decompress_loop_skip _ n 0 text); [done | lia | done |].
  intros m c _ _. destruct (in_class c); by apply index_of_no_head.
Qed.

(** A text that is one placeholder and plain text around it is changed by
    no round but the round of that placeholder. *)
Lemma decompress_loop_skip_placeholder compressionDict n lo pre x post :
  (lo ≤ n)%nat → (n ≤ 88)%nat →
  "&"%char ∉ pre → "&"%char ∉ post → x ≠ "&"%char →
  (∀ m, (lo ≤ m < n)%nat → WILDCARDS !! m ≠ Some x) →
  decompress_loop compressionDict n (pre ++ placeholder x ++ post)
  = decompress_loop compressionDict lo (pre ++ placeholder x ++ post).
Proof.
  intros Hlo Hn Hpre Hpost Hx Hother. apply decompress_loop_skip; [done..|].
  intros m c Hm Hc. destruct (in_class c).
  - by apply index_of_placeholder_class.
  - apply index_of_placeholder_other; [done..|]. intros ->. by apply (Hother m).
Qed.

Lemma WILDCARDS_lookup_inj m1 m2 c :
  WILDCARDS !! m1 = Some c → WILDCARDS !! m2 = Some c → m1 = m2.
Proof. apply NoDup_lookup, WILDCARDS_NoDup. Qed.

Lemma in_class_dollar c : in_class c = false → c ≠ "$"%char.
Proof. by intros Hc ->. Qed.

Lemma plain_word_no_dollar pre c post :
  plain pre → plain post → c ≠ "$"%char → "$"%char ∉ pre ++ placeholder c ++ post.
Proof.
  intros [_ Hpre] [_ Hpost] Hc. unfold placeholder.
  apply not_elem_of_app. split; [done|].
  apply not_elem_of_app. split; [|done].
  apply not_elem_of_cons. split; [done|].
  apply not_elem_of_cons. split; [congruence | apply not_elem_of_nil].
Qed.

Lemma decompressBytes_loop s dictText body rest :
  Split s (B "||") = dictText :: body :: rest →
  decompressBytes s
  = decompress_loop (Split dictText (B "|")) (length (Split dictText (B "|"))) body.
Proof.
  unfold decompressBytes. intros ->.
  destruct (Z.ltb_spec (len (dictText :: body :: rest)) 2) as [Hlen|_]; [|done].
  unfold len in Hlen. simpl in Hlen. lia.
Qed.

(** The text that is the placeholder of word [i] becomes word [i] in round
    [i], when the symbol is outside the class and the word is no template. *)
Lemma decompress_loop_to_word compressionDict i ci word :
  (length compressionDict ≤ 88)%nat →
  WILDCARDS !! i = Some ci → in_class ci = false →
  compressionDict !! i = Some word → "$"%char ∉ word →
  decompress_loop compressionDict (length compressionDict) (placeholder ci)
  = decompress_loop compressionDict i word.
Proof.
  intros Hlen Hci Hclass Hword Hdollar.
  assert (i < length compressionDict)%nat as Hi by (by eapply lookup_lt_Some).
  assert (ci ≠ "&"%char) as Hamp
    by (by eapply WILDCARDS_no_ampersand, list_elem_of_lookup_2).
  change (placeholder ci) with ([] ++ placeholder ci ++ []) at 1.
  rewrite (decompress_loop_skip_placeholder _ _ (S i)); [|lia|done|by apply not_elem_of_nil..|done|].
  - rewrite (decompress_loop_step _ _ _ _ _ Hci Hclass Hword).
    rewrite ReplaceAll_placeholder by (done || apply not_elem_of_nil).
    by rewrite app_nil_l, app_nil_r.
  - intros m Hm Hc. pose proof (WILDCARDS_lookup_inj _ _ _ Hc Hci). lia.
Qed.

(** A placeholder of a lower index inside word [i] is replaced by the word
    of that index: the descending loop comes to it after round [i]. *)
Lemma decompress_loop_back_reference compressionDict i j ci cj pre post wj :
  (length compressionDict ≤ 88)%nat → (j < i)%nat →
  WILDCARDS !! i = Some ci → WILDCARDS !! j = Some cj →
  in_class ci = false → in_class cj = false →
  compressionDict !! i = Some (pre ++ placeholder cj ++ post) →
  compressionDict !! j = Some wj →
  plain pre → plain post → plain wj →
  decompress_loop compressionDict (length compressionDict) (placeholder ci)
  = Ok (pre ++ wj ++ post).
Proof.
  intros Hlen Hji Hci Hcj Hclassi Hclassj Hwi Hwj Hpre Hpost Hplain.
  assert (i < length compressionDict)%nat as Hi by (by eapply lookup_lt_Some).
  assert (cj ≠ "&"%char) as Hamp
    by (by eapply WILDCARDS_no_ampersand, list_elem_of_lookup_2).
  rewrite (decompress_loop_to_word _ _ _ _ Hlen Hci Hclassi Hwi)
    by (by apply plain_word_no_dollar; [..|apply in_class_dollar]).
  destruct Hpre as [Hpre _], Hpost as [Hpost _], Hplain as [Hwamp Hwdollar].
  rewrite (decompress_loop_skip_placeholder _ _ (S j)); [|lia|lia|done..|].
  - rewrite (decompress_loop_step _ _ _ _ _ Hcj Hclassj Hwj).
    rewrite ReplaceAll_placeholder by done.
    apply decompress_loop_no_ampersand; [lia|].
    rewrite !not_elem_of_app. done.
  - intros m Hm Hc. pose proof (WILDCARDS_lookup_inj _ _ _ Hc Hcj). lia.
Qed.


(** X15: A reference to an earlier word is resolved: when the body is the
    placeholder of word [i] and word [i] holds the placeholder of a word
    [j] before it, the result is word [i] with word [j] in the place of
    that placeholder. *)
Lemma decompressBytes_back_reference s dictText rest i j ci cj pre post wj :
  Split s (B "||") = dictText :: placeholder ci :: rest →
  (len (Split dictText (B "|")) <= 88) → (j < i)%nat →
  WILDCARDS !! i = Some ci → WILDCARDS !! j = Some cj →
  in_class ci = false → in_class cj = false →
  Split dictText (B "|") !! i = Some (pre ++ placeholder cj ++ post) →
  Split dictText (B "|") !! j = Some wj →
  plain pre → plain post → plain wj →
  decompressBytes s = Ok (pre ++ wj ++ post)
  ∧ decompress s = Ok (pre ++ wj ++ post).
Proof.
  intros Hs Hlen. intros.
  change (decompress s) with (decompressBytes s).
  rewrite (decompressBytes_loop _ _ _ _ Hs).
  split; eapply decompress_loop_back_reference; eauto; unfold len in Hlen; lia.
Qed.


Lemma plain_letters_example : plain (B "a") ∧ plain (B "b") ∧ plain (B "X").
Proof.
  repeat split; apply (bool_decide_unpack _); by vm_compute.
Qed.

(** The two lemmas at work on small documents. *)
Lemma decompressBytes_back_reference_example :
  decompressBytes (B "X|a&0b||&1") = Ok (B "aXb")
  ∧ decompress (B "X|a&0b||&1") = Ok (B "aXb").
Proof.
  destruct plain_letters_example as (Ha & Hb & HX).
  apply (decompressBytes_back_reference _ (B "X|a&0b") [] 1 0 "1" "0"
           (B "a") (B "b") (B "X"));
    first [assumption | reflexivity | lia | by vm_compute].
Defined.


(** * The properties of the specification *)

(** C1 (the code departs from it): a deck whose first [Bytes] call ran the
    decode and returned the error [e] does not return [e] again.  The
    second call returns the same bytes with a [nil] error, because the
    named result [err] is only assigned inside the function given to
    [parseOnce.Do], which runs once.  The decode itself is not run again:
    the deck has counted one execution of [parse] and is left as it was. *)
Theorem Bytes_error_returned_once (raw res : bytes) (e : error) (d1 : deck) :
  Bytes (newDeck raw) = (Returns (res, Some e), d1) →
  Bytes d1 = (Returns (res, None), d1) ∧ parseRuns d1 = 1%nat.
Proof.
  intros HB.
  assert (parseOnce d1 = true) as Hdone
    by (by rewrite <- (Bytes_sets_done (newDeck raw)), HB).
  assert (res = buf d1) as ->
    by (rewrite (Bytes_result_buf (newDeck raw) res (Some e)); by rewrite HB).
  split; [by apply Bytes_done|].
  pose proof (Bytes_parseRuns (newDeck raw)) as Hruns. by rewrite HB in Hruns.
Qed.

Lemma Bytes_error_returned_once_witness :
  Bytes (newDeck []) = (Returns ([], Some ErrInvalidDeck), mkDeck [] true 1)
  ∧ Bytes (mkDeck [] true 1) = (Returns ([], None), mkDeck [] true 1)
  ∧ parseRuns (mkDeck [] true 1) = 1%nat.
Proof.
  split; [reflexivity|].
  apply (Bytes_error_returned_once [] [] ErrInvalidDeck). reflexivity.
Defined.

(** C2 (the code departs from it): when the decompressed text has no
    separator <<;;;>>, [deck.parse] does not return an error, it panics
    reading [parts[1]] of a one-element [parts]; [decompressDeck] panics at
    the same place unless parsing the whole text as an index list has
    already failed, with the error of [strconv.ParseInt]. *)
Theorem decode_without_separator (raw doc : bytes) :
  decompressBytes raw = Ok doc → Index doc (B ";;;") = -1 →
  parse_buf raw = (raw, Panics (IndexOutOfRange 1 1))
  ∧ bytePipeline raw = Panic (IndexOutOfRange 1 1)
  ∧ (decompressDeck raw = Panic (IndexOutOfRange 1 1)
     ∨ ∃ num k, decompressDeck raw = Err (NumError num k)).
Proof.
  intros Hdoc Hsep.
  assert (parse_buf raw = (raw, Panics (IndexOutOfRange 1 1))) as Hparse.
  { unfold parse_buf. rewrite Hdoc, (Split_no_sep _ _ Hsep). reflexivity. }
  split; [done|]. split.
  - unfold bytePipeline. rewrite Bytes_first by done. simpl buf. by rewrite Hparse.
  - unfold decompressDeck. rewrite decompress_decompressBytes, Hdoc, bind_Ok.
    rewrite (Split_no_sep _ _ Hsep).
    change (default [] ([doc] !! 0%nat)) with doc.
    rewrite parseCommaDelimitedIntegerArray_fields.
    destruct (mapM ParseInt _) as [d|e|p] eqn:Hd;
      rewrite ?bind_Ok, ?bind_Err, ?bind_Panic.
    + by left.
    + right. by apply mapM_ParseInt_Err in Hd as (num & k & ->); eauto.
    + by apply mapM_ParseInt_no_panic in Hd.
Qed.

Lemma decode_without_separator_witness :
  parse_buf noSeparatorDeck = (noSeparatorDeck, Panics (IndexOutOfRange 1 1))
  ∧ bytePipeline noSeparatorDeck = Panic (IndexOutOfRange 1 1)
  ∧ (decompressDeck noSeparatorDeck = Panic (IndexOutOfRange 1 1)
     ∨ ∃ num k, decompressDeck noSeparatorDeck = Err (NumError num k)).
Proof.
  apply (decode_without_separator noSeparatorDeck
           (B "I love love slay the relics and slay the spire"));
    reflexivity.
Defined.

(** The error [decompressDeck] returns on the example of the specification. *)
Lemma decompressDeck_noSeparatorDeck :
  decompressDeck noSeparatorDeck
  = Err (NumError (B "I love love slay the relics and slay the spire") ErrSyntax).
Proof. reflexivity. Qed.

(** [deck.parse] fails with "card index out of bounds" at the first index
    without an entry in the table, and leaves the buffer as it was. *)
Lemma parse_buf_index_out_of_range raw doc idxText tableText rest pre val post idx :
  decompressBytes raw = Ok doc →
  Split doc (B ";;;") = idxText :: tableText :: rest →
  fields idxText (B ",") = pre ++ val :: post →
  Forall (λ f, ∃ i, ParseInt f = Ok i ∧ in_table (fields tableText (B ";;")) i) pre →
  ParseInt val = Ok idx → ¬ in_table (fields tableText (B ";;")) idx →
  parse_buf raw = (raw, Returns (Some ErrCardIndexOutOfBounds)).
Proof.
  intros Hdoc Hparts Hfields Hpre Hval Hout.
  unfold parse_buf. rewrite Hdoc, Hparts. cbn [second_part lookup list_lookup].
  rewrite readDelimitedBytes_fields.
  destruct (foldM_readCard (fields tableText (B ";;")) [] 0) as [l ->].
  change (default [] (Some idxText)) with idxText.
  rewrite app_nil_l, readDelimitedBytes_fields, Hfields.
  by rewrite (foldM_readIndex_out_of_range _ _ _ _ _ _ Hpre Hval Hout).
Qed.

(** For [deck.parse] the table text <<->> and the empty table text are the
    empty table: every index is out of it. *)
Lemma fields_empty_table tableText idx :
  tableText = B "-" ∨ tableText = [] → ¬ in_table (fields tableText (B ";;")) idx.
Proof.
  intros Htable.
  assert (fields tableText (B ";;") = []) as -> by (by destruct Htable as [->| ->]).
  unfold in_table, len. simpl. lia.
Qed.

(** [decompressDeck] fails with "card index out of bounds" when every field
    of the index list is an integer and one of them has no entry. *)
Lemma decompressDeck_index_out_of_range raw doc idxText tableText rest d :
  decompress raw = Ok doc →
  Split doc (B ";;;") = idxText :: tableText :: rest →
  parseCommaDelimitedIntegerArray idxText = Ok d →
  Exists (λ idx, ¬ in_table (splitDoubleSemicolonArray tableText) idx) d →
  decompressDeck raw = Err ErrCardIndexOutOfBounds.
Proof.
  intros Hdoc Hparts Hd Hex. unfold decompressDeck.
  rewrite Hdoc, bind_Ok, Hparts.
  change (default [] ((idxText :: tableText :: rest) !! 0%nat)) with idxText.
  rewrite Hd, bind_Ok. cbn [second_part lookup list_lookup]. rewrite bind_Ok.
  apply decompressDeck_loop_out_of_range.
  eapply Exists_impl; [exact Hex|]. intros idx Hout Hin. apply Hout.
  unfold in_table, parseCards, len in *. by rewrite length_map in Hin.
Qed.

(** C3 (the code departs from it): with an empty table text and the index
    list <<0>>, [decompressDeck] does not fail.  [strings.Split] of the
    empty text is one empty piece, so the table has one entry, whose name
    is empty, and index 0 is counted for it.  [deck.parse] takes the
    empty table text for the empty table and fails, as the specification
    has it. *)
Theorem decompressDeck_empty_table_text :
  decompressDeck (B "||0;;;") = Ok {[ [] := 1 ]}
  ∧ bytePipeline (B "||0;;;") = Err ErrCardIndexOutOfBounds.
Proof. split; vm_compute; reflexivity. Qed.

(** C4: the example deck decodes to the counts card1: 3, card2: 2,
    card3: 1, and the whole pipeline yields the three lines of the report,
    in [deck.Bytes] as in the reference formatter. *)
Theorem smallDeck_decodes :
  smallDeckCounts = {[ B "card1" := 3; B "card2" := 2; B "card3" := 1 ]}
  ∧ decompressDeck smallDeck = Ok smallDeckCounts
  ∧ (Bytes (newDeck smallDeck)).1 = Returns (smallDeckReport, None)
  ∧ bytePipeline smallDeck = Ok smallDeckReport
  ∧ getStableOutput smallDeckCounts = smallDeckReport.
Proof. repeat split; vm_compute; reflexivity. Qed.

(** ** Placeholders the decompressor leaves *)

(** The expressions [init] compiles.  For a symbol outside the class of
    [escapeRegex] the expression is the placeholder itself.  For a
    symbol of the class the template <<\$&>> is not a variable of Go's
    template syntax (a name is made of letters, digits and underscores),
    so the symbol is replaced by the three bytes of the template, and the
    compiled expression matches the text <<&$&>> instead of the
    placeholder. *)
Lemma init_plain_symbol :
  compressionWildcardRegex !! 0%nat = Some (regexp.Literal (B "&0"))
  ∧ compressionWildcardRegex !! 66%nat = Some (regexp.Literal (B "&%")).
Proof. split; reflexivity. Qed.

Lemma init_class_symbol :
  WILDCARDS !! 62%nat = Some "["%char
  ∧ regexp.ReplaceAll escapeRegex (B "&[") (B "\$&") = B "&\$&"
  ∧ compressionWildcardRegex !! 62%nat = Some (regexp.Literal (B "&$&")).
Proof. repeat split; reflexivity. Qed.

(** C5 (the code departs from it): a placeholder of a lower index inside
    a dictionary word is not always replaced by the word of that index.
    The word is used as a replacement template: the word <<$0>> stands for
    the matched text, so the placeholder <<&0>> inside word 1 is replaced
    by itself and stays in the output.  And the placeholder of a symbol of
    the class of [escapeRegex] is never matched: in [bracketDeck] word 66
    refers to word 62 and the output keeps the placeholder. *)
Theorem decompress_back_reference_left :
  decompressBytes (B "$0|a&0b||&1") = Ok (B "a&0b")
  ∧ decompress (B "$0|a&0b||&1") = Ok (B "a&0b")
  ∧ decompressBytes bracketDeck = Ok (B "a&[b")
  ∧ decompress bracketDeck = Ok (B "a&[b").
Proof. repeat split; by vm_compute. Qed.

(** With words that are no templates and symbols outside the class the
    same dictionaries are decompressed as the specification has it. *)
Lemma decompress_back_reference_resolved :
  decompressBytes (B "X|a&0b||&1") = Ok (B "aXb")
  ∧ decompressBytes (B "a&1b|X||&0") = Ok (B "a&1b").
Proof. split; by vm_compute. Qed.



(** C7 (as the code has it): a key whose count is positive adds the line
    <<name xcount\n>> to the report; a key whose count is 0 adds its name and
    nothing else, neither a count nor a line feed; the loop fails only on a
    key that is not in the map. *)
Theorem format_loop_lines (m : gmap bytes Z) (keys : list bytes) (buf : bytes) :
  (∀ k, k ∈ keys → is_Some (m !! k)) →
  format_loop m keys buf = (buf ++ concat (map (report_line m) keys), None)
  ∧ (∀ k count, m !! k = Some count → 0 < count →
                report_line m k = k ++ B " x" ++ FormatInt count ++ [LF])
  ∧ (∀ k, m !! k = Some 0 → report_line m k = k).
Proof.
  intros Hkeys. split; [|split].
  - apply format_loop_found. by apply Forall_forall.
  - apply report_line_positive.
  - intros k Hk. by apply (report_line_not_positive m k 0).
Qed.

Lemma format_loop_lines_witness :
  format_loop strikeDefend [B "Strike"; B "Defend"] []
  = (B "Strike x2" ++ [LF] ++ B "Defend", None).
Proof.
  destruct (format_loop_lines strikeDefend [B "Strike"; B "Defend"] [])
    as (Hloop & _ & _).
  - intros k Hk.
    repeat (apply elem_of_cons in Hk as [->|Hk]; [by eexists|]).
    by apply elem_of_nil in Hk.
  - rewrite Hloop. reflexivity.
Defined.

(** A key with count 0 does not add <<name\n>>: the line feed is appended
    with the count only. *)
Lemma format_loop_count_zero :
  format_loop {[ B "Defend" := 0 ]} [B "Defend"] [] = (B "Defend", None)
  ∧ format_loop {[ B "Defend" := 0 ]} [B "Defend"] [] ≠ (B "Defend" ++ [LF], None).
Proof. split; [reflexivity | discriminate]. Qed.



(** ** The matcher table *)

Lemma compressionWildcardRegex_length : length compressionWildcardRegex = 88%nat.
Proof. reflexivity. Qed.

Lemma decompress_loop_in_bounds compressionDict n text :
  (n ≤ 88)%nat → ∃ text', decompress_loop compressionDict n text = Ok text'.
Proof.
  revert text. induction n as [|i IH]; intros text Hn; simpl; [eauto|].
  destruct (lookup_lt_is_Some_2 compressionWildcardRegex i) as [re ->].
  { rewrite compressionWildcardRegex_length. lia. }
  apply IH. lia.
Qed.

Lemma decompress_loop_out_of_bounds compressionDict n text :
  (88 < n)%nat →
  decompress_loop compressionDict n text
  = Panic (IndexOutOfRange (Z.of_nat n - 1) 88).
Proof.
  destruct n as [|i]; [lia|]. intros Hn. simpl decompress_loop.
  rewrite (lookup_ge_None_2 compressionWildcardRegex i)
    by (rewrite compressionWildcardRegex_length; lia).
  do 2 f_equal. lia.
Qed.

(** C9 (as the code has it): [WILDCARDS] has 88 symbols.  For an input
    with the separator <<||>> whose dictionary has at most 88 words,
    [decompressBytes] and [decompress] read the matcher table in bounds and
    return a text; with more than 88 words the first round of the loop
    reads the table out of bounds and both panic. *)
Theorem decompress_table_access (s : bytes) :
  2 <= len (Split s (B "||")) →
  let compressionDict := Split (default [] (Split s (B "||") !! 0%nat)) (B "|") in
  len WILDCARDS = 88 ∧ len compressionWildcardRegex = 88
  ∧ (len compressionDict <= 88 →
     ∃ text, decompressBytes s = Ok text ∧ decompress s = Ok text)
  ∧ (88 < len compressionDict →
     decompressBytes s = Panic (IndexOutOfRange (len compressionDict - 1) 88)
     ∧ decompress s = Panic (IndexOutOfRange (len compressionDict - 1) 88)).
Proof.
  intros Hparts compressionDict.
  split; [reflexivity|]. split; [reflexivity|].
  unfold decompress, decompressBytes.
  destruct (Z.ltb_spec (len (Split s (B "||"))) 2) as [?|_]; [lia|].
  fold compressionDict. split.
  - intros Hlen.
    destruct (decompress_loop_in_bounds compressionDict (length compressionDict)
                (default [] (Split s (B "||") !! 1%nat))) as [text Htext].
    { unfold len in Hlen. lia. }
    exists text. by rewrite Htext.
  - intros Hlen. rewrite decompress_loop_out_of_bounds by (unfold len in Hlen; lia).
    done.
Qed.

Lemma decompress_table_access_witness :
  (∃ text, decompressBytes smallDeck = Ok text ∧ decompress smallDeck = Ok text)
  ∧ decompressBytes (B "a|" ++ dictionaryOf89) = Panic (IndexOutOfRange 89 88).
Proof.
  split.
  - destruct (decompress_table_access smallDeck) as (_ & _ & Hin & _);
      [by vm_compute|]. apply Hin. by vm_compute.
  - destruct (decompress_table_access (B "a|" ++ dictionaryOf89)) as (_ & _ & _ & Hout);
      [by vm_compute|]. destruct Hout as [Hout _]; [by vm_compute|].
    rewrite Hout. reflexivity.
Defined.

(** A dictionary of 89 words is within the 90 the specification allows, and the table
    is read out of bounds. *)
Lemma decompress_89_words :
  2 <= len (Split dictionaryOf89 (B "||"))
  ∧ len (Split (default [] (Split dictionaryOf89 (B "||") !! 0%nat)) (B "|")) = 89
  ∧ decompressBytes dictionaryOf89 = Panic (IndexOutOfRange 88 88)
  ∧ decompress dictionaryOf89 = Panic (IndexOutOfRange 88 88).
Proof. repeat split; by vm_compute. Qed.

(** ** The two pipelines *)

(** When no entry of the table has an empty name, the field loop of the
    byte pipeline and [strings.Split] of the string pipeline cut the table
    text into the same entries. *)
Lemma table_entries_agree tableText :
  Forall (λ name, name ≠ []) (parseCards (splitDoubleSemicolonArray tableText)) →
  fields tableText (B ";;") = splitDoubleSemicolonArray tableText.
Proof.
  unfold fields, splitDoubleSemicolonArray, parseCards.
  case_bool_decide; [done|]. intros Hnames.
  apply genSplit_fields_loop; [done | lia |].
  apply Forall_forall. intros entry Hentry ->.
  rewrite Forall_forall in Hnames. apply (Hnames []); [|done].
  apply list_elem_of_In, in_map_iff. exists []. split; [done|].
  by apply list_elem_of_In.
Qed.

Lemma counted_keys m u keys :
  counted m u → keys ≡ₚ (map_to_list m).*1 → u ≡ₚ keys.
Proof.
  intros (Hnd & Hkeys & _) Hperm. apply NoDup_Permutation.
  - done.
  - rewrite Hperm. apply NoDup_fst_map_to_list.
  - intros k. rewrite Hperm, Hkeys, list_elem_of_fmap. split.
    + intros [v Hv]. exists (k, v). split; [done|]. by apply elem_of_map_to_list.
    + intros ([k' v] & -> & Hv). exists v. by apply elem_of_map_to_list.
Qed.

(** On counts that are all positive the two formatters write the same
    lines. *)
Lemma formatters_agree m u keys :
  counted m u → keys ≡ₚ (map_to_list m).*1 →
  format_loop m (SortFunc cardLess u) [] = (getStableOutput_from keys m, None).
Proof.
  intros Hinv Hperm.
  pose proof (counted_keys _ _ _ Hinv Hperm) as Hu.
  destruct Hinv as (Hnd & Hkeys & Hpos).
  rewrite getStableOutput_from_concat, <- (SortFunc_cardLess_perm_eq _ _ Hnd Hu).
  assert (Forall (λ k, is_Some (m !! k)) (SortFunc cardLess u)) as Hall.
  { apply Forall_forall. intros k Hk. apply Hkeys.
    by rewrite <- (SortFunc_cardLess_Permutation u Hnd). }
  rewrite format_loop_found by done. rewrite app_nil_l. do 2 f_equal.
  apply map_ext_in. intros k Hk%list_elem_of_In.
  rewrite Forall_forall in Hall. destruct (Hall k Hk) as [v Hv].
  rewrite (report_line_positive _ _ _ Hv (Hpos _ _ Hv)). by rewrite Hv.
Qed.




(** After a final <<;;>> the string pipeline has one more, empty, table
    entry: on this input it succeeds and the byte pipeline fails. *)
Lemma pipelines_differ_on_final_delimiter :
  decompressDeck (B "||1;;;a;;") = Ok {[ [] := 1 ]}
  ∧ bytePipeline (B "||1;;;a;;") = Err ErrCardIndexOutOfBounds.
Proof. split; by vm_compute. Qed.

(** * More properties of the code *)

(** * More properties of the code *)

(** ** Fields, pieces and [Join] *)

Lemma genSplit_nonempty fuel s sep : genSplit fuel s sep ≠ [].
Proof. destruct fuel; [done|]. rewrite genSplit_S. by destruct (index_of s sep). Qed.

Lemma Join_cons piece rest sep :
  rest ≠ [] → Join (piece :: rest) sep = piece ++ sep ++ Join rest sep.
Proof. by destruct rest. Qed.

Lemma Join_snoc_empty l sep : l ≠ [] → Join (l ++ [[]]) sep = Join l sep ++ sep.
Proof.
  induction l as [|piece l IH]; [done|]. intros _.
  destruct l as [|piece' l].
  - simpl. by rewrite app_nil_r.
  - rewrite <- app_comm_cons. rewrite (Join_cons piece) by done.
    rewrite IH by done. rewrite (Join_cons piece) by done.
    by rewrite <- !app_assoc.
Qed.

(** [Join] undoes [Split]. *)
Lemma genSplit_Join fuel s sep :
  (length s < fuel)%nat → sep ≠ [] → Join (genSplit fuel s sep) sep = s.
Proof.
  intros Hfuel Hsep. revert s Hfuel.
  induction fuel as [|fuel IH]; intros s Hfuel; [lia|].
  rewrite genSplit_S. destruct (index_of s sep) as [m|] eqn:Hm; [|done].
  rewrite Join_cons by apply genSplit_nonempty.
  pose proof (index_of_bound _ _ _ Hm).
  assert (0 < length sep)%nat by (destruct sep; [done | simpl; lia]).
  rewrite IH by (rewrite length_drop; lia).
  symmetry. by apply index_of_Some.
Qed.

Lemma Split_Join s sep : sep ≠ [] → Join (Split s sep) sep = s.
Proof. intros Hsep. apply genSplit_Join; [lia | done]. Qed.

(** The field loop has the pieces of [Split], but for a last empty piece. *)
Lemma genSplit_fields_loop_last fuel s sep :
  (length s < fuel)%nat → sep ≠ [] →
  genSplit fuel s sep
  = fields_loop fuel s sep
    ++ (if decide (last (genSplit fuel s sep) = Some []) then [[]] else []).
Proof.
  intros Hfuel Hsep. revert s Hfuel.
  induction fuel as [|fuel IH]; intros s Hfuel; [lia|].
  rewrite genSplit_S. cbn [fields_loop].
  destruct s as [|c s].
  { by rewrite index_of_nil by done. }
  destruct (index_of (c :: s) sep) as [m|] eqn:Hm.
  - pose proof (index_of_bound _ _ _ Hm).
    assert (0 < length sep)%nat by (destruct sep; [done | simpl; lia]).
    assert (length (drop (m + length sep) (c :: s)) < fuel)%nat as Hrest
      by (rewrite length_drop; simpl in *; lia).
    rewrite <- app_comm_cons. f_equal.
    rewrite (IH _ Hrest) at 1. f_equal.
    destruct (genSplit fuel (drop (m + length sep) (c :: s)) sep) as [|p l] eqn:Hg.
    + by apply genSplit_nonempty in Hg.
    + by rewrite last_cons_cons.
  - rewrite decide_False by (simpl; congruence). by rewrite app_nil_r.
Qed.

Lemma HasPrefix_take s sep k m :
  (k + length sep ≤ m)%nat →
  HasPrefix (drop k (take m s)) sep = HasPrefix (drop k s) sep.
Proof.
  intros Hk.
  assert (∀ t u, (length sep ≤ length t)%nat → HasPrefix (t ++ u) sep = HasPrefix t sep)
    as Happ.
  { clear. induction sep as [|p sep IH]; intros t u Ht; [done|].
    destruct t as [|c t]; [simpl in Ht; lia|]. simpl.
    destruct (Ascii.eqb p c); [|done]. apply IH. simpl in Ht. lia. }
  destruct (decide (m ≤ length s)%nat) as [Hm|Hm].
  - rewrite <- (take_drop m s) at 2. rewrite drop_app_le by (rewrite length_take; lia).
    rewrite Happ; [done|]. rewrite length_drop, length_take. lia.
  - by rewrite take_ge by lia.
Qed.

Lemma index_of_None_iff s sep :
  index_of s sep = None ↔ ∀ k, HasPrefix (drop k s) sep = false.
Proof.
  split; [intros H k; by apply index_of_None|].
  induction s as [|c s IH]; intros Hall; simpl.
  - specialize (Hall 0%nat). simpl in Hall. by rewrite Hall.
  - pose proof (Hall 0%nat) as H0. simpl in H0. rewrite H0.
    rewrite IH; [done|]. intros k. apply (Hall (S k)).
Qed.

(** Before its first occurrence in [s] the separator does not occur. *)
Lemma index_of_take s sep m :
  sep ≠ [] → index_of s sep = Some m → index_of (take m s) sep = None.
Proof.
  intros Hsep Hm. apply index_of_None_iff. intros k.
  assert (0 < length sep)%nat by (destruct sep; [done | simpl; lia]).
  destruct (decide (k + length sep ≤ m)%nat) as [Hk|Hk].
  - rewrite HasPrefix_take by done. apply (index_of_first _ _ m); [done | lia].
  - destruct (HasPrefix (drop k (take m s)) sep) eqn:Hp; [|done].
    apply HasPrefix_app in Hp as [t Ht].
    apply (f_equal length) in Ht.
    rewrite length_drop, length_take, length_app in Ht. lia.
Qed.

Lemma fields_loop_no_delim fuel s delim :
  delim ≠ [] → Forall (λ field, Index field delim = -1) (fields_loop fuel s delim).
Proof.
  intros Hd. revert s. induction fuel as [|fuel IH]; intros s; simpl; [constructor|].
  destruct s as [|c s]; [constructor|].
  destruct (index_of (c :: s) delim) as [m|] eqn:Hm.
  - constructor; [|apply IH]. apply Index_None. by apply index_of_take.
  - constructor; [|constructor]. by apply Index_None.
Qed.

Lemma foldM_collectField l acc : foldM collectField l acc = Ok (acc ++ l).
Proof.
  revert acc. induction l as [|val l IH]; intros acc; cbn.
  - by rewrite app_nil_r.
  - rewrite IH. by rewrite <- app_assoc.
Qed.

Lemma foldM_collectInt l acc :
  foldM collectInt l acc = vals ← mapM ParseInt l; Ok (acc ++ vals).
Proof.
  revert acc. induction l as [|val l IH]; intros acc; cbn [foldM mapM].
  - cbn. by rewrite app_nil_r.
  - change (collectInt val acc) with (ParseInt val ≫= λ valInt, Ok (acc ++ [valInt])).
    destruct (ParseInt val) as [v| |]; rewrite ?bind_Ok, ?bind_Err, ?bind_Panic;
      [|done..].
    rewrite IH. destruct (mapM ParseInt l); cbn; [|done..].
    by rewrite <- app_assoc.
Qed.

Lemma readDelimitedBytes_collectField s delim :
  readDelimitedBytes s delim collectField [] = Ok (fields s delim).
Proof. by rewrite readDelimitedBytes_fields, foldM_collectField. Qed.

Lemma fields_Split s delim :
  delim ≠ [] → s ≠ B "-" →
  Split s delim
  = fields s delim ++ (if decide (last (Split s delim) = Some []) then [[]] else []).
Proof.
  intros Hd Hs. unfold fields. rewrite bool_decide_eq_false_2 by done.
  apply genSplit_fields_loop_last; [lia | done].
Qed.

(** ** [readDelimitedBytes], [parseCommaDelimitedIntegerArray], [parseCard] *)

Lemma genSplit_no_sep fuel s sep :
  sep ≠ [] → (length s < fuel)%nat →
  Forall (λ piece, Index piece sep = -1) (genSplit fuel s sep).
Proof.
  intros Hsep. revert s. induction fuel as [|fuel IH]; intros s Hfuel; [lia|].
  rewrite genSplit_S. destruct (index_of s sep) as [m|] eqn:Hm.
  - pose proof (index_of_bound _ _ _ Hm).
    assert (0 < length sep)%nat by (destruct sep; [done | simpl; lia]).
    constructor; [apply Index_None; by apply index_of_take|].
    apply IH. rewrite length_drop. lia.
  - constructor; [by apply Index_None | constructor].
Qed.

Lemma index_of_single_None s c : index_of s [c] = None → c ∉ s.
Proof.
  induction s as [|x s IH]; simpl; [intros _; apply not_elem_of_nil|].
  destruct (Ascii.eqb_spec c x) as [->|Hne]; [done|].
  destruct (index_of s [c]) eqn:Hs; [done|]. intros _.
  apply not_elem_of_cons. split; [done | by apply IH].
Qed.

(** X1: The fields of [readDelimitedBytes] and the pieces of [bytes.Split]:
    for every callback the function runs the callback over a list of
    fields, in order, and this list is what [bytes.Split] gives without its
    last piece when that piece is empty.  The text <<->> has no fields. *)
Theorem readDelimitedBytes_Split (s delim : bytes) :
  delim ≠ [] →
  ∃ l, (∀ St (cb : bytes → St → outcome St) st,
          readDelimitedBytes s delim cb st = foldM cb l st)
       ∧ (s = B "-" → l = [])
       ∧ (s ≠ B "-" →
          Split s delim
          = l ++ (if decide (last (Split s delim) = Some []) then [[]] else [])).
Proof.
  intros Hd. exists (fields s delim). split; [|split].
  - intros St cb st. apply readDelimitedBytes_fields.
  - by intros ->.
  - by apply fields_Split.
Qed.

Lemma readDelimitedBytes_Split_witness :
  ∃ l, (∀ St (cb : bytes → St → outcome St) st,
          readDelimitedBytes (B "a;;b;;") (B ";;") cb st = foldM cb l st)
       ∧ (B "a;;b;;" = B "-" → l = [])
       ∧ (B "a;;b;;" ≠ B "-" →
          Split (B "a;;b;;") (B ";;")
          = l ++ (if decide (last (Split (B "a;;b;;") (B ";;")) = Some [])
                  then [[]] else [])).
Proof. apply (readDelimitedBytes_Split (B "a;;b;;") (B ";;")). discriminate. Defined.

(** X2: [readDelimitedBytes] loses no byte: the fields it hands to the
    callback, joined by the delimiter, are the input, or the input without
    a final delimiter. *)
Theorem readDelimitedBytes_Join (s delim : bytes) :
  delim ≠ [] → s ≠ B "-" →
  ∃ l, readDelimitedBytes s delim collectField [] = Ok l
       ∧ (s = Join l delim ∨ s = Join l delim ++ delim).
Proof.
  intros Hd Hs. exists (fields s delim).
  split; [apply readDelimitedBytes_collectField|].
  pose proof (Split_Join s delim Hd) as Hjoin.
  rewrite (fields_Split s delim Hd Hs) in Hjoin.
  case_decide as Hlast.
  - destruct (fields s delim) as [|f l] eqn:Hf.
    + left. by rewrite <- Hjoin.
    + right. by rewrite Join_snoc_empty in Hjoin.
  - left. by rewrite app_nil_r in Hjoin.
Qed.

Lemma readDelimitedBytes_Join_witness :
  ∃ l, readDelimitedBytes (B "1,2,") (B ",") collectField [] = Ok l
       ∧ (B "1,2," = Join l (B ",") ∨ B "1,2," = Join l (B ",") ++ B ",").
Proof. apply (readDelimitedBytes_Join (B "1,2,") (B ",")); discriminate. Defined.

(** X3: No field handed to the callback contains the delimiter. *)
Theorem readDelimitedBytes_fields_no_delim (s delim : bytes) :
  delim ≠ [] →
  ∃ l, readDelimitedBytes s delim collectField [] = Ok l
       ∧ Forall (λ field, Index field delim = -1) l.
Proof.
  intros Hd. exists (fields s delim).
  split; [apply readDelimitedBytes_collectField|].
  unfold fields. case_bool_decide; [constructor|]. by apply fields_loop_no_delim.
Qed.

Lemma readDelimitedBytes_fields_no_delim_witness :
  ∃ l, readDelimitedBytes (B "x;y;;;z") (B ";;") collectField [] = Ok l
       ∧ Forall (λ field, Index field (B ";;") = -1) l.
Proof. apply (readDelimitedBytes_fields_no_delim (B "x;y;;;z") (B ";;")). discriminate. Defined.

(** X4: The two readers of an index list agree: on every text
    [parseCommaDelimitedIntegerArray] returns what [readDelimitedBytes]
    collects with the delimiter <<,>> and the callback that parses each
    field, the same integers or the same error. *)
Theorem parseCommaDelimitedIntegerArray_readDelimitedBytes (s : bytes) :
  parseCommaDelimitedIntegerArray s = readDelimitedBytes s (B ",") collectInt [].
Proof.
  rewrite parseCommaDelimitedIntegerArray_fields, readDelimitedBytes_fields.
  rewrite foldM_collectInt. by destruct (mapM ParseInt _).
Qed.

Lemma mapM_ParseInt_first_error l e :
  mapM ParseInt l = Err e →
  ∃ pre val post,
    l = pre ++ val :: post
    ∧ Forall (λ f, ∃ i, ParseInt f = Ok i) pre
    ∧ ParseInt val = Err e.
Proof.
  induction l as [|val l IH]; cbn; [done|].
  destruct (ParseInt val) as [v|e'|p] eqn:Hv; cbn.
  - destruct (mapM ParseInt l) as [vals|e'|p]; cbn; [done| |done].
    intros [= <-]. destruct (IH eq_refl) as (pre & val' & post & -> & Hpre & Hval).
    exists (val :: pre), val', post. split; [done|]. split; [|done].
    constructor; [eauto | done].
  - intros [= <-]. exists [], val, l. split; [done|]. split; [constructor | done].
  - done.
Qed.

Lemma mapM_ParseInt_Ok l d :
  mapM ParseInt l = Ok d → Forall2 (λ f i, ParseInt f = Ok i) l d.
Proof.
  revert d. induction l as [|val l IH]; intros d; cbn.
  - intros [= <-]. constructor.
  - destruct (ParseInt val) as [v|e'|p] eqn:Hv; cbn; [|done..].
    destruct (mapM ParseInt l) as [vals|e'|p]; cbn; [|done..].
    intros [= <-]. constructor; [done | by apply IH].
Qed.

(** X5: [parseCommaDelimitedIntegerArray] never panics.  Over the fields
    [readDelimitedBytes] cuts at the commas: when it succeeds it has one
    integer for each field, in order; when it fails its error is the
    error of [strconv.ParseInt] on the first field that is no integer. *)
Theorem parseCommaDelimitedIntegerArray_outcome (s : bytes) :
  ∃ l, readDelimitedBytes s (B ",") collectField [] = Ok l
       ∧ match parseCommaDelimitedIntegerArray s with
         | Ok d => Forall2 (λ f i, ParseInt f = Ok i) l d
         | Err e =>
             ∃ pre val post,
               l = pre ++ val :: post
               ∧ Forall (λ f, ∃ i, ParseInt f = Ok i) pre
               ∧ ParseInt val = Err e
               ∧ ∃ num k, e = NumError num k
         | Panic _ => False
         end.
Proof.
  exists (fields s (B ",")). split; [apply readDelimitedBytes_collectField|].
  rewrite parseCommaDelimitedIntegerArray_fields.
  destruct (mapM ParseInt (fields s (B ","))) as [d|e|p] eqn:Hd.
  - by apply mapM_ParseInt_Ok.
  - destruct (mapM_ParseInt_first_error _ _ Hd) as (pre & val & post & ? & ? & ?).
    exists pre, val, post. repeat split; try done. by eapply mapM_ParseInt_Err.
  - by apply mapM_ParseInt_no_panic in Hd.
Qed.

(** X6: [parseCard] and [parseCardBytes] return the part of the entry before
    its first semicolon: a prefix of the entry without semicolon, followed
    in the entry by nothing or by a semicolon. *)
Theorem parseCard_prefix (cardSection : bytes) :
  parseCardBytes cardSection = parseCard cardSection
  ∧ (";"%char ∉ parseCard cardSection)
  ∧ (∃ rest, cardSection = parseCard cardSection ++ rest
             ∧ (rest = [] ∨ ∃ rest', rest = ";"%char :: rest')).
Proof.
  split; [reflexivity|]. unfold parseCard, Index.
  destruct (index_of cardSection (B ";")) as [m|] eqn:Hm.
  - destruct (Z.eqb_spec (Z.of_nat m) (-1)) as [?|_]; [lia|].
    rewrite slice_prefix. split.
    + apply index_of_single_None. by apply index_of_take.
    + exists (B ";" ++ drop (m + length (B ";")) cardSection).
      split; [by apply index_of_Some | right; by eexists].
  - simpl. split; [by apply index_of_single_None|].
    exists []. split; [by rewrite app_nil_r | by left].
Qed.

(** X7: [splitDoubleSemicolonArray] loses no byte: joined by <<;;>> its pieces
    are the text again, and no piece contains <<;;>>.  Only the text <<->>
    is taken for the empty array. *)
Theorem splitDoubleSemicolonArray_Join (s : bytes) :
  s ≠ B "-" →
  Join (splitDoubleSemicolonArray s) (B ";;") = s
  ∧ Forall (λ piece, Index piece (B ";;") = -1) (splitDoubleSemicolonArray s)
  ∧ splitDoubleSemicolonArray s ≠ [].
Proof.
  intros Hs. unfold splitDoubleSemicolonArray.
  rewrite bool_decide_eq_false_2 by done. split; [|split].
  - by apply Split_Join.
  - apply genSplit_no_sep; [done | lia].
  - apply genSplit_nonempty.
Qed.

Lemma splitDoubleSemicolonArray_Join_witness :
  Join (splitDoubleSemicolonArray (B "a;1;;b;2;;")) (B ";;") = B "a;1;;b;2;;"
  ∧ Forall (λ piece, Index piece (B ";;") = -1)
           (splitDoubleSemicolonArray (B "a;1;;b;2;;"))
  ∧ splitDoubleSemicolonArray (B "a;1;;b;2;;") ≠ [].
Proof. apply (splitDoubleSemicolonArray_Join (B "a;1;;b;2;;")). discriminate. Defined.

(** ** What the two pipelines count *)

Lemma occurrences_nil names name : occurrences names [] name = 0.
Proof. reflexivity. Qed.

Lemma occurrences_cons_same names idx d name :
  names !! Z.to_nat idx = Some name →
  occurrences names (idx :: d) name = occurrences names d name + 1.
Proof.
  intros Hname. unfold occurrences, len.
  rewrite filter_cons_True by done. simpl. lia.
Qed.

Lemma occurrences_cons_other names idx d name :
  names !! Z.to_nat idx ≠ Some name →
  occurrences names (idx :: d) name = occurrences names d name.
Proof. intros Hname. unfold occurrences. by rewrite filter_cons_False. Qed.

Lemma occurrences_nonneg names d name : 0 <= occurrences names d name.
Proof. unfold occurrences. apply len_nonneg. Qed.

Lemma in_table_lookup cards idx :
  in_table cards idx → ∃ entry, cards !! Z.to_nat idx = Some entry.
Proof.
  intros Hin. apply lookup_lt_is_Some_2. unfold in_table, len in Hin. lia.
Qed.

Lemma decompressDeck_loop_counts names d m0 :
  Forall (in_table names) d →
  ∃ m, decompressDeck_loop names d m0 = Ok m
       ∧ ∀ name, default 0 (m !! name) = default 0 (m0 !! name) + occurrences names d name
                 ∧ (is_Some (m !! name)
                    ↔ is_Some (m0 !! name) ∨ 0 < occurrences names d name).
Proof.
  intros Hall. revert m0. induction Hall as [|idx d Hin _ IH]; intros m0.
  - exists m0. split; [done|]. intros name. rewrite occurrences_nil.
    split; [lia|]. split; [by left | intros [?|?]; [done | lia]].
  - cbn [decompressDeck_loop].
    rewrite (proj2 (bounds_check_false names idx) Hin).
    destruct (in_table_lookup _ _ Hin) as [name0 Hname0]. rewrite Hname0. cbn [from_option id].
    destruct (IH (<[name0 := default 0 (m0 !! name0) + 1]> m0)) as (m & Hm & Hcount).
    exists m. split; [done|]. intros name. destruct (Hcount name) as [Hc Hs].
    rewrite Hc, Hs. rewrite lookup_insert.
    pose proof (occurrences_nonneg names d name).
    destruct (decide (name0 = name)) as [->|Hne].
    + rewrite (occurrences_cons_same _ _ _ _ Hname0). cbn [from_option id].
      split; [lia|]. split; [intros _; right; lia | intros _; left; eauto].
    + rewrite occurrences_cons_other by congruence. done.
Qed.

(** X8: When every field of the index list is an integer with an entry in the
    table, [decompressDeck] returns a map whose keys are the names the
    indexes refer to, each with the number of indexes that refer to it. *)
Theorem decompressDeck_counts (raw doc idxText tableText : bytes) (rest : list bytes)
        (d : list Z) :
  let names := parseCards (splitDoubleSemicolonArray tableText) in
  decompress raw = Ok doc →
  Split doc (B ";;;") = idxText :: tableText :: rest →
  parseCommaDelimitedIntegerArray idxText = Ok d →
  Forall (in_table names) d →
  ∃ m, decompressDeck raw = Ok m
       ∧ ∀ name, m !! name = if decide (occurrences names d name = 0) then None
                             else Some (occurrences names d name).
Proof.
  intros names Hdoc Hparts Hd Hall. unfold decompressDeck.
  rewrite Hdoc, bind_Ok, Hparts.
  change (default [] ((idxText :: tableText :: rest) !! 0%nat)) with idxText.
  rewrite Hd, bind_Ok. cbn [second_part lookup list_lookup]. rewrite bind_Ok.
  destruct (decompressDeck_loop_counts names d ∅ Hall) as (m & Hm & Hcount).
  exists m. split; [done|]. intros name. destruct (Hcount name) as [Hc Hs].
  rewrite lookup_empty in Hc, Hs. cbn [from_option id] in Hc.
  case_decide as Hocc.
  - destruct (m !! name) as [v|] eqn:Hv; [|done].
    assert (is_Some (Some v)) as Hsome%Hs by eauto.
    destruct Hsome as [[? [=]]|?]. lia.
  - destruct (m !! name) as [v|] eqn:Hv; cbn [from_option id] in Hc; [f_equal; lia | lia].
Qed.

Lemma decompressDeck_counts_witness :
  ∃ m, decompressDeck smallDeck = Ok m
       ∧ ∀ name,
           m !! name
           = if decide (occurrences
                          (parseCards (splitDoubleSemicolonArray
                                         (B "card1;junk;x;;card2;junk;y;;card3;junk;z")))
                          [0; 1; 1; 0; 2; 0] name = 0)
             then None
             else Some (occurrences
                          (parseCards (splitDoubleSemicolonArray
                                         (B "card1;junk;x;;card2;junk;y;;card3;junk;z")))
                          [0; 1; 1; 0; 2; 0] name).
Proof.
  apply (decompressDeck_counts smallDeck
           (B "0,1,1,0,2,0;;;card1;junk;x;;card2;junk;y;;card3;junk;z")
           (B "0,1,1,0,2,0") (B "card1;junk;x;;card2;junk;y;;card3;junk;z") []);
    try reflexivity.
  repeat constructor; by vm_compute.
Defined.

Lemma foldM_readIndex_counts cards l d m0 u0 :
  mapM ParseInt l = Ok d → Forall (in_table cards) d →
  ∃ m u, foldM (readIndex cards) l (m0, u0) = Ok (m, u)
         ∧ (∀ name, name ≠ [] →
                    default 0 (m !! name)
                    = default 0 (m0 !! name) + occurrences (parseCards cards) d name)
         ∧ m !! [] = m0 !! [].
Proof.
  revert d m0 u0. induction l as [|val l IH]; intros d m0 u0; cbn [mapM foldM].
  - intros [= <-] _. exists m0, u0. split; [done|]. split; [|done].
    intros name _. rewrite occurrences_nil. lia.
  - destruct (ParseInt val) as [idx| |] eqn:Hval; rewrite ?bind_Err, ?bind_Panic;
      [|done..].
    rewrite bind_Ok.
    destruct (mapM ParseInt l) as [d'| |] eqn:Hd'; rewrite ?bind_Err, ?bind_Panic;
      [|done..].
    rewrite bind_Ok. intros [= <-] [Hin Hall]%Forall_cons.
    rewrite (readIndex_in_table _ _ _ _ _ Hval Hin). cbn zeta.
    destruct (in_table_lookup _ _ Hin) as [entry Hentry].
    assert (parseCards cards !! Z.to_nat idx = Some (parseCard entry)) as Hname
      by (unfold parseCards; by rewrite list_lookup_fmap, Hentry).
    rewrite Hentry. cbn [from_option id].
    case_decide as Hempty; rewrite bind_Ok.
    + destruct (IH d' m0 u0 eq_refl Hall) as (m & u & Hfold & Hcount & Hnil).
      exists m, u. split; [done|]. split; [|done].
      intros name Hne. rewrite occurrences_cons_other by congruence. by apply Hcount.
    + destruct (IH d' (<[parseCard entry := default 0 (m0 !! parseCard entry) + 1]> m0)
                  (if decide (is_Some (m0 !! parseCard entry)) then u0
                   else u0 ++ [parseCard entry]) eq_refl Hall)
        as (m & u & Hfold & Hcount & Hnil).
      exists m, u. split; [done|]. split.
      * intros name Hne. rewrite (Hcount name Hne), lookup_insert.
        destruct (decide (parseCard entry = name)) as [<-|Hother].
        -- rewrite (occurrences_cons_same _ _ _ _ Hname). cbn [from_option id]. lia.
        -- rewrite occurrences_cons_other by congruence. done.
      * rewrite Hnil. by rewrite lookup_insert_ne.
Qed.

Lemma readDelimitedBytes_readIndex_counted cards s m u :
  readDelimitedBytes s (B ",") (readIndex cards) (∅, []) = Ok (m, u) → counted m u.
Proof.
  rewrite readDelimitedBytes_fields. intros Hfold.
  eapply foldM_readIndex_counted; [exact Hfold | apply counted_empty].
Qed.

Lemma format_loop_counted m u :
  counted m u →
  format_loop m (SortFunc cardLess u) []
  = (concat (map (λ name, name ++ B " x" ++ FormatInt (default 0 (m !! name)) ++ [LF])
                 (SortFunc cardLess u)), None).
Proof.
  intros Hinv. rewrite (formatters_agree m u (map_to_list m).*1 Hinv) by done.
  rewrite getStableOutput_from_concat.
  rewrite (SortFunc_cardLess_perm_eq u (map_to_list m).*1); [done | apply Hinv |].
  by eapply counted_keys.
Qed.

Lemma decompress_loop_no_error compressionDict n text e :
  decompress_loop compressionDict n text ≠ Err e.
Proof.
  revert text. induction n as [|n IH]; intros text; simpl; [done|].
  destruct (compressionWildcardRegex !! n); [apply IH | done].
Qed.

(** The only error of the decompressor is "invalid deck". *)
Lemma decompressBytes_error s e : decompressBytes s = Err e → e = ErrInvalidDeck.
Proof.
  unfold decompressBytes. destruct (len _ <? 2); [congruence|].
  intros H. by apply decompress_loop_no_error in H.
Qed.

Lemma ParseInt_error val e : ParseInt val = Err e → ∃ num k, e = NumError num k.
Proof.
  intros Hval. apply (mapM_ParseInt_Err [val]). cbn. by rewrite Hval.
Qed.

Lemma foldM_readIndex_error cards l st e :
  foldM (readIndex cards) l st = Err e →
  e = ErrCardIndexOutOfBounds ∨ ∃ num k, e = NumError num k.
Proof.
  revert st. induction l as [|val l IH]; intros [m u]; cbn [foldM]; [done|].
  destruct (ParseInt val) as [idx|e'|p] eqn:Hval.
  - destruct (decide (in_table cards idx)) as [Hin|Hout].
    + rewrite (readIndex_in_table _ _ _ _ _ Hval Hin). cbn zeta.
      case_decide; rewrite bind_Ok; apply IH.
    + rewrite (readIndex_out_of_range _ _ _ _ Hval Hout), bind_Err.
      intros [= <-]. by left.
  - rewrite (readIndex_syntax _ _ _ _ Hval), bind_Err. intros [= <-].
    right. by eapply ParseInt_error.
  - by apply ParseInt_no_panic in Hval.
Qed.

Lemma parse_buf_failure raw :
  match parse_buf raw with
  | (_, Returns None) => True
  | (b, Returns (Some e)) => b = raw ∧ e ≠ ErrCardNotFound
  | (b, Panics _) => b = raw
  end.
Proof.
  unfold parse_buf.
  destruct (decompressBytes raw) as [doc|e|p] eqn:Hdoc.
  2:{ split; [done|]. by rewrite (decompressBytes_error _ _ Hdoc). }
  2:{ done. }
  destruct (second_part _) as [tableText|e|p] eqn:Hsecond.
  2:{ unfold second_part in Hsecond. by destruct (_ !! 1%nat). }
  2:{ done. }
  rewrite readDelimitedBytes_fields.
  destruct (foldM_readCard (fields tableText (B ";;")) [] 0) as [l ->].
  destruct (readDelimitedBytes _ (B ",") _ _) as [[m u]|e|p] eqn:Hread.
  - apply readDelimitedBytes_readIndex_counted in Hread.
    by rewrite (format_loop_counted _ _ Hread).
  - split; [done|]. rewrite readDelimitedBytes_fields in Hread.
    apply foldM_readIndex_error in Hread as [->|(num & k & ->)]; done.
  - done.
Qed.

(** X9: [deck.parse] writes the buffer only when it succeeds: when it returns
    an error or panics the buffer still holds the raw input.  And it never
    returns "card not found": every name of [uniqueCardList] is a key of
    [cardIdxCountMap]. *)
Theorem parse_failure (d : deck) :
  match parse d with
  | (Returns None, _) => True
  | (Returns (Some e), d') => buf d' = buf d ∧ e ≠ ErrCardNotFound
  | (Panics _, d') => buf d' = buf d
  end.
Proof.
  unfold parse. pose proof (parse_buf_failure (buf d)) as H.
  by destruct (parse_buf (buf d)) as [b [[e|]|p]].
Qed.

Lemma parse_buf_report (raw doc idxText tableText : bytes) (rest : list bytes)
        (d : list Z) :
  let cards := fields tableText (B ";;") in
  let names := parseCards cards in
  decompressBytes raw = Ok doc →
  Split doc (B ";;;") = idxText :: tableText :: rest →
  mapM ParseInt (fields idxText (B ",")) = Ok d →
  Forall (in_table cards) d →
  ∃ u, parse_buf raw
       = (concat (map (λ name, name ++ B " x" ++ FormatInt (occurrences names d name)
                                    ++ [LF])
                      (SortFunc cardLess u)), Returns None)
       ∧ NoDup u
       ∧ StronglySorted card_lt (SortFunc cardLess u)
       ∧ ∀ name, name ∈ u ↔ name ≠ [] ∧ 0 < occurrences names d name.
Proof.
  intros cards names Hdoc Hparts Hd Hall.
  unfold parse_buf. rewrite Hdoc, Hparts. cbn [second_part lookup list_lookup].
  rewrite readDelimitedBytes_fields.
  destruct (foldM_readCard (fields tableText (B ";;")) [] 0) as [l ->].
  change (default [] (Some idxText)) with idxText.
  rewrite app_nil_l, readDelimitedBytes_fields. fold cards.
  destruct (foldM_readIndex_counts cards _ d ∅ [] Hd Hall)
    as (m & u & Hfold & Hcount & Hnil).
  rewrite Hfold.
  pose proof (foldM_readIndex_counted _ _ _ _ _ _ Hfold counted_empty) as Hinv.
  rewrite (format_loop_counted _ _ Hinv).
  destruct Hinv as (Hnd & Hkeys & Hpos).
  assert (∀ name, name ∈ u ↔ name ≠ [] ∧ 0 < occurrences names d name) as Hu.
  { intros name. rewrite Hkeys. split.
    - intros [v Hv]. destruct (decide (name = [])) as [->|Hne].
      + rewrite Hnil, lookup_empty in Hv. done.
      + split; [done|]. specialize (Hcount name Hne).
        rewrite Hv, lookup_empty in Hcount. cbn [from_option id] in Hcount.
        apply Hpos in Hv. fold names in Hcount. lia.
    - intros [Hne Hocc]. specialize (Hcount name Hne).
      rewrite lookup_empty in Hcount. cbn [from_option id] in Hcount. fold names in Hcount.
      destruct (m !! name) as [v|]; [eauto | cbn [from_option id] in Hcount; lia]. }
  exists u. split; [|split; [done|split; [by apply SortFunc_cardLess_sorted | done]]].
  do 2 f_equal. apply map_ext_in. intros name Hin%list_elem_of_In.
  rewrite (SortFunc_cardLess_Permutation u Hnd) in Hin.
  apply Hu in Hin as [Hne _]. specialize (Hcount name Hne).
  rewrite lookup_empty in Hcount. cbn [from_option id] in Hcount. fold names in Hcount.
  by rewrite Hcount, Z.add_0_l.
Qed.

(** X10: When every field of the index list is an integer with an entry in the
    table, [deck.parse] succeeds and leaves the report in the buffer: one
    line <<name xN\n>> for each non-empty name the indexes refer to, [N]
    the number of indexes that refer to it, the names without repetition
    and in the order of the sort. *)
Theorem parse_report (dk : deck) (doc idxText tableText : bytes)
        (rest cards : list bytes) (d : list Z) :
  let names := parseCards cards in
  decompressBytes (buf dk) = Ok doc →
  Split doc (B ";;;") = idxText :: tableText :: rest →
  readDelimitedBytes tableText (B ";;") collectField [] = Ok cards →
  readDelimitedBytes idxText (B ",") collectInt [] = Ok d →
  Forall (in_table cards) d →
  ∃ u dk',
    parse dk = (Returns None, dk')
    ∧ buf dk' = concat (map (λ name, name ++ B " x"
                                     ++ FormatInt (occurrences names d name) ++ [LF])
                            (SortFunc cardLess u))
    ∧ NoDup u
    ∧ StronglySorted card_lt (SortFunc cardLess u)
    ∧ ∀ name, name ∈ u ↔ name ≠ [] ∧ 0 < occurrences names d name.
Proof.
  intros names Hdoc Hparts Hcards Hd Hall.
  rewrite readDelimitedBytes_collectField in Hcards. injection Hcards as <-.
  rewrite readDelimitedBytes_fields, foldM_collectInt in Hd.
  destruct (mapM ParseInt (fields idxText (B ","))) as [d'| |] eqn:Hints; [|done..].
  rewrite bind_Ok in Hd. injection Hd as <-.
  destruct (parse_buf_report (buf dk) doc idxText tableText rest d' Hdoc Hparts Hints Hall)
    as (u & Hparse & Hnd & Hsorted & Hu).
  exists u. eexists. unfold parse. rewrite Hparse.
  split; [reflexivity|]. split; [reflexivity|].
  split; [done|]. split; [done|]. exact Hu.
Qed.

Lemma parse_report_witness :
  ∃ u dk',
    parse (newDeck smallDeck) = (Returns None, dk')
    ∧ buf dk' = concat (map (λ name, name ++ B " x"
                                     ++ FormatInt (occurrences [B "card1"; B "card2"; B "card3"]
                                                               [0; 1; 1; 0; 2; 0] name)
                                     ++ [LF])
                            (SortFunc cardLess u))
    ∧ NoDup u
    ∧ StronglySorted card_lt (SortFunc cardLess u)
    ∧ ∀ name, name ∈ u ↔ name ≠ [] ∧ 0 < occurrences [B "card1"; B "card2"; B "card3"]
                                                         [0; 1; 1; 0; 2; 0] name.
Proof.
  apply (parse_report (newDeck smallDeck)
           (B "0,1,1,0,2,0;;;card1;junk;x;;card2;junk;y;;card3;junk;z")
           (B "0,1,1,0,2,0") (B "card1;junk;x;;card2;junk;y;;card3;junk;z") []
           [B "card1;junk;x"; B "card2;junk;y"; B "card3;junk;z"]);
    try reflexivity.
  repeat constructor; by vm_compute.
Defined.

(** X11: [getStableOutput] does not depend on the order in which Go iterates
    the map: whatever the order of the collected keys, the text has one
    line <<name xN\n>> for each key, in the order of the sort. *)
Theorem getStableOutput_order (countMap : gmap bytes Z) (keys : list bytes) :
  keys ≡ₚ (map_to_list countMap).*1 →
  getStableOutput_from keys countMap = getStableOutput countMap
  ∧ SortFunc cardLess keys ≡ₚ keys
  ∧ StronglySorted card_lt (SortFunc cardLess keys)
  ∧ getStableOutput_from keys countMap
    = concat (map (λ k, k ++ B " x" ++ FormatInt (default 0 (countMap !! k)) ++ [LF])
                  (SortFunc cardLess keys)).
Proof.
  intros Hperm.
  assert (NoDup keys) as Hnd by (rewrite Hperm; apply NoDup_fst_map_to_list).
  split; [|split; [|split]].
  - unfold getStableOutput. rewrite !getStableOutput_from_concat.
    by rewrite (SortFunc_cardLess_perm_eq _ _ Hnd Hperm).
  - by apply SortFunc_cardLess_Permutation.
  - by apply SortFunc_cardLess_sorted.
  - apply getStableOutput_from_concat.
Qed.

Lemma getStableOutput_order_witness :
  getStableOutput_from threeKeys threeCounts = getStableOutput threeCounts
  ∧ getStableOutput_from threeKeys threeCounts
    = B "Apple x20" ++ [LF] ++ B "Zebra x1" ++ [LF] ++ B "Ascender's Bane x3" ++ [LF].
Proof.
  destruct (getStableOutput_order threeCounts threeKeys) as (Hsame & _ & _ & _).
  - apply (bool_decide_unpack _). by vm_compute.
  - split; [exact Hsame | by vm_compute].
Defined.

(** ** What the decompressor resolves *)

Lemma Split_length_2 s sep : Index s sep ≠ -1 → 2 <= len (Split s sep).
Proof.
  unfold Split, Index. rewrite genSplit_S.
  destruct (index_of s sep) as [m|]; [|done]. intros _.
  pose proof (genSplit_nonempty (length s) (drop (m + length sep) s) sep).
  destruct (genSplit _ _ _); [done|]. unfold len. simpl. lia.
Qed.

(** X12: "invalid deck" is the error of an input without the separator <<||>>,
    and the decompressor has no other error. *)
Theorem decompressBytes_invalid_deck (s : bytes) :
  (Index s (B "||") = -1 →
   decompressBytes s = Err ErrInvalidDeck ∧ decompress s = Err ErrInvalidDeck)
  ∧ (∀ e, decompressBytes s = Err e ∨ decompress s = Err e →
          e = ErrInvalidDeck ∧ Index s (B "||") = -1).
Proof.
  split.
  - intros Hsep. unfold decompress, decompressBytes.
    by rewrite (Split_no_sep _ _ Hsep).
  - intros e He.
    assert (decompressBytes s = Err e) as Herr by (by destruct He).
    split; [by eapply decompressBytes_error|].
    destruct (decide (Index s (B "||") = -1)) as [|Hsep]; [done|].
    apply Split_length_2 in Hsep. unfold decompressBytes in Herr.
    destruct (Z.ltb_spec (len (Split s (B "||"))) 2); [lia|].
    by apply decompress_loop_no_error in Herr.
Qed.

Lemma decompressBytes_invalid_deck_witness :
  decompressBytes (B "|") = Err ErrInvalidDeck ∧ decompress (B "|") = Err ErrInvalidDeck.
Proof.
  destruct (decompressBytes_invalid_deck (B "|")) as [Hno _]. apply Hno. reflexivity.
Defined.

(** X13: A body without ampersand is returned as it is, whatever the words of
    the dictionary, as long as there are at most 88 of them. *)
Theorem decompress_plain_body (s dictText body : bytes) (rest : list bytes) :
  Split s (B "||") = dictText :: body :: rest →
  len (Split dictText (B "|")) <= 88 →
  "&"%char ∉ body →
  decompressBytes s = Ok body ∧ decompress s = Ok body.
Proof.
  intros Hs Hlen Hbody. change (decompress s) with (decompressBytes s).
  rewrite (decompressBytes_loop _ _ _ _ Hs).
  split; apply decompress_loop_no_ampersand; (done || (unfold len in Hlen; lia)).
Qed.

Lemma decompress_plain_body_witness :
  decompressBytes (B "Foo|Bar||I love love slay the relics and slay the spire")
  = Ok (B "I love love slay the relics and slay the spire")
  ∧ decompress (B "Foo|Bar||I love love slay the relics and slay the spire")
    = Ok (B "I love love slay the relics and slay the spire").
Proof.
  apply (decompress_plain_body _ (B "Foo|Bar") _ []); [reflexivity | by vm_compute |].
  apply (bool_decide_unpack _). by vm_compute.
Defined.

(** One round of [Regexp.replaceAll]. *)
Lemma ReplaceAll_unfold re src repl :
  re ≠ regexp.Literal [] →
  regexp.ReplaceAll re src repl
  = match regexp.find re src with
    | None => src
    | Some (m, n) =>
        take m src ++ regexp.expand repl (take n (drop m src))
        ++ regexp.ReplaceAll re (drop (m + n) src) repl
    end.
Proof.
  intros Hre. unfold regexp.ReplaceAll at 1. cbn [regexp.replaceAll_loop].
  destruct (regexp.find re src) as [[m n]|] eqn:Hfind; [|done].
  apply find_bound in Hfind as [Hmn Hn]; [|done].
  do 2 f_equal. unfold regexp.ReplaceAll.
  apply replaceAll_loop_fuel; [done | rewrite length_drop; lia | lia].
Qed.

(** A piece of text in which no match begins is copied. *)
Lemma ReplaceAll_skip lit t rest repl :
  lit ≠ [] →
  index_of (t ++ rest) lit = (λ n, length t + n)%nat <$> index_of rest lit →
  regexp.ReplaceAll (regexp.Literal lit) (t ++ rest) repl
  = t ++ regexp.ReplaceAll (regexp.Literal lit) rest repl.
Proof.
  intros Hlit Hidx.
  assert (regexp.Literal lit ≠ regexp.Literal []) as Hre by congruence.
  rewrite (ReplaceAll_unfold _ (t ++ rest)), (ReplaceAll_unfold _ rest) by done.
  cbn [regexp.find]. rewrite Hidx.
  destruct (index_of rest lit) as [k|]; cbn [fmap option_fmap option_map]; [|done].
  rewrite take_app_add, drop_app_add.
  replace (length t + k + length lit)%nat with (length t + (k + length lit))%nat by lia.
  rewrite drop_app_add. by rewrite <- app_assoc.
Qed.

Lemma ReplaceAll_skip_text c p t rest repl :
  c ∉ t →
  regexp.ReplaceAll (regexp.Literal (c :: p)) (t ++ rest) repl
  = t ++ regexp.ReplaceAll (regexp.Literal (c :: p)) rest repl.
Proof.
  intros Hc. apply ReplaceAll_skip; [done|]. by apply index_of_app_no_head.
Qed.

Lemma ReplaceAll_skip_placeholder p c rest repl :
  c ≠ "&"%char → HasPrefix (c :: rest) p = false →
  regexp.ReplaceAll (regexp.Literal ("&"%char :: p)) (placeholder c ++ rest) repl
  = placeholder c ++ regexp.ReplaceAll (regexp.Literal ("&"%char :: p)) rest repl.
Proof.
  intros Hc Hp. apply ReplaceAll_skip; [done|].
  unfold placeholder. cbn [app]. rewrite index_of_later.
  - rewrite index_of_later by (by apply HasPrefix_head_ne).
    destruct (index_of rest ("&"%char :: p)); done.
  - cbn [HasPrefix]. by rewrite Ascii.eqb_refl.
Qed.

Lemma ReplaceAll_here c rest word :
  "$"%char ∉ word →
  regexp.ReplaceAll (regexp.Literal (placeholder c)) (placeholder c ++ rest) word
  = word ++ regexp.ReplaceAll (regexp.Literal (placeholder c)) rest word.
Proof.
  intros Hword. rewrite ReplaceAll_unfold by done. cbn [regexp.find].
  rewrite index_of_here by (cbn [placeholder app HasPrefix]; by rewrite !Ascii.eqb_refl).
  cbn [fmap option_fmap option_map]. rewrite take_0, drop_0, app_nil_l.
  change (take (length (placeholder c)) (placeholder c ++ rest)) with (placeholder c).
  change (drop (0 + length (placeholder c)) (placeholder c ++ rest)) with rest.
  by rewrite expand_no_dollar.
Qed.

Lemma ReplaceAll_nil lit repl :
  lit ≠ [] → regexp.ReplaceAll (regexp.Literal lit) [] repl = [].
Proof. intros Hlit. apply ReplaceAll_no_match. by apply index_of_nil. Qed.

Lemma symbol_lookup i : (i < 88)%nat → WILDCARDS !! i = Some (symbol i).
Proof.
  intros Hi. unfold symbol.
  destruct (lookup_lt_is_Some_2 WILDCARDS i) as [c ->]; [|done].
  change (length WILDCARDS) with 88%nat. lia.
Qed.

Lemma matcher_shape c :
  ∃ p, (if in_class c then B "&$&" else placeholder c) = "&"%char :: p
       ∧ (p = B "$&" ∧ in_class c = true ∨ p = [c] ∧ in_class c = false).
Proof.
  destruct (in_class c); eexists; (split; [reflexivity|]); [by left | by right].
Qed.

Section rounds.
Context (compressionDict : list bytes).
Hypothesis dict_size : (length compressionDict ≤ 88)%nat.
Hypothesis dict_plain : Forall plain compressionDict.

Lemma word_plain i : plain (default [] (compressionDict !! i)).
Proof.
  destruct (compressionDict !! i) as [word|] eqn:Hword; simpl.
  - rewrite Forall_forall in dict_plain. apply dict_plain.
    by eapply list_elem_of_lookup_2.
  - split; apply not_elem_of_nil.
Qed.

(** Round [m] replaces the references to word [m] and nothing else. *)
Lemma decompress_round m toks :
  (m < length compressionDict)%nat →
  Forall (well_formed (length compressionDict)) toks →
  regexp.ReplaceAll
    (regexp.Literal (if in_class (symbol m) then B "&$&" else placeholder (symbol m)))
    (concat (map (partly_resolved compressionDict (S m)) toks))
    (default [] (compressionDict !! m))
  = concat (map (partly_resolved compressionDict m) toks).
Proof.
  intros Hm Htoks.
  destruct (matcher_shape (symbol m)) as (p & Hlit & Hp).
  induction Htoks as [|tok toks Htok _ IH]; cbn [map concat].
  { rewrite Hlit. by apply ReplaceAll_nil. }
  destruct tok as [t|i]; cbn [partly_resolved well_formed] in *.
  - rewrite Hlit, ReplaceAll_skip_text by done. by rewrite <- Hlit, IH.
  - destruct Htok as [Hi Hclass].
    destruct (decide (S m ≤ i)%nat) as [Hhigh|Hlow].
    + rewrite (decide_True (P:=(m ≤ i)%nat)) by lia.
      rewrite Hlit, ReplaceAll_skip_text by apply word_plain.
      by rewrite <- Hlit, IH.
    + destruct (decide (m ≤ i)%nat) as [Hmi|Hmi].
      * assert (i = m) as -> by lia. rewrite Hclass in *.
        rewrite ReplaceAll_here by apply word_plain. by rewrite IH.
      * assert (symbol i ≠ "&"%char) as Hamp.
        { apply WILDCARDS_no_ampersand. eapply list_elem_of_lookup_2.
          apply symbol_lookup. lia. }
        rewrite Hlit, ReplaceAll_skip_placeholder; [by rewrite <- Hlit, IH | done |].
        destruct Hp as [[-> Hclassm]|[-> Hclassm]].
        -- cbn [HasPrefix B list_ascii_of_string].
           destruct (Ascii.eqb_spec "$" (symbol i)) as [Heq|]; [|done].
           rewrite <- Heq in Hclass. done.
        -- cbn [HasPrefix].
           destruct (Ascii.eqb_spec (symbol m) (symbol i)) as [Heq|]; [|done].
           assert (m = i); [|lia].
           apply (WILDCARDS_lookup_inj _ _ (symbol m)); [apply symbol_lookup; lia|].
           rewrite Heq. apply symbol_lookup. lia.
Qed.

Lemma decompress_rounds m toks :
  (m ≤ length compressionDict)%nat →
  Forall (well_formed (length compressionDict)) toks →
  decompress_loop compressionDict m (concat (map (partly_resolved compressionDict m) toks))
  = Ok (concat (map (partly_resolved compressionDict 0) toks)).
Proof.
  intros Hm Htoks. induction m as [|m IH]; [done|].
  cbn [decompress_loop].
  rewrite (matcher_lookup m (symbol m)) by (apply symbol_lookup; lia).
  rewrite decompress_round by (done || lia). apply IH. lia.
Qed.

Lemma decompress_loop_tokens toks :
  Forall (well_formed (length compressionDict)) toks →
  decompress_loop compressionDict (length compressionDict) (concat (map written toks))
  = Ok (concat (map (resolved compressionDict) toks)).
Proof.
  intros Htoks.
  assert (map written toks
          = map (partly_resolved compressionDict (length compressionDict)) toks) as ->.
  { apply map_ext_in. intros tok Htok%list_elem_of_In.
    rewrite Forall_forall in Htoks. specialize (Htoks tok Htok).
    destruct tok as [t|i]; [done|]. cbn in *. by rewrite decide_False by lia. }
  assert (map (resolved compressionDict) toks
          = map (partly_resolved compressionDict 0) toks) as ->.
  { apply map_ext_in. intros [t|i] _; [done|]. cbn. by rewrite decide_True by lia. }
  by apply decompress_rounds.
Qed.
End rounds.

(** X14: The decompressor on the documents it is made for: a dictionary of
    at most 88 words without ampersand and dollar sign, and a body made of
    text without ampersand and of placeholders of dictionary words, by
    symbols that are no metacharacters of regular expressions.  Every
    placeholder is replaced by its word and the text is kept. *)
Theorem decompress_tokens (s dictText : bytes) (rest : list bytes) (toks : list token) :
  let compressionDict := Split dictText (B "|") in
  Split s (B "||") = dictText :: concat (map written toks) :: rest →
  len compressionDict <= 88 →
  Forall plain compressionDict →
  Forall (well_formed (length compressionDict)) toks →
  decompressBytes s = Ok (concat (map (resolved compressionDict) toks))
  ∧ decompress s = Ok (concat (map (resolved compressionDict) toks)).
Proof.
  intros compressionDict Hs Hlen Hplain Htoks.
  change (decompress s) with (decompressBytes s).
  rewrite (decompressBytes_loop _ _ _ _ Hs).
  split; apply decompress_loop_tokens; (done || (unfold len in Hlen; lia)).
Qed.

Lemma decompress_tokens_witness :
  decompressBytes (B "love|slay the||I &0 &0 &1 relics and &1 spire")
  = Ok (B "I love love slay the relics and slay the spire")
  ∧ decompress (B "love|slay the||I &0 &0 &1 relics and &1 spire")
    = Ok (B "I love love slay the relics and slay the spire").
Proof.
  apply (decompress_tokens (B "love|slay the||I &0 &0 &1 relics and &1 spire")
           (B "love|slay the") []
           [Text (B "I "); Ref 0; Text (B " "); Ref 0; Text (B " "); Ref 1;
            Text (B " relics and "); Ref 1; Text (B " spire")]).
  - reflexivity.
  - by vm_compute.
  - repeat constructor; apply (bool_decide_unpack _); by vm_compute.
  - repeat constructor; try (apply (bool_decide_unpack _); by vm_compute);
      by vm_compute.
Defined.

(** ** The handler *)

Lemma API_eq a1 a2 : deckLists a1 = deckLists a2 → decks a1 = decks a2 → a1 = a2.
Proof. destruct a1, a2. simpl. by intros -> ->. Qed.

Lemma getDeckHandler_registered ToLower a name pointer d :
  deckLists a !! ToLower name = Some pointer → decks a !! pointer = Some d →
  getDeckHandler ToLower a name
  = Some (match (Bytes d).1 with
          | Panics p => Panics p
          | Returns (resBts, Some err) => Returns (JSON 500 (inr err))
          | Returns (resBts, None) => Returns (Data 200 (B "text/plain") resBts)
          end,
          {| deckLists := deckLists a; decks := <[pointer := (Bytes d).2]> (decks a) |}).
Proof.
  intros Hname Hd. unfold getDeckHandler. rewrite Hname, Hd. cbn.
  by destruct (Bytes d) as [[[? [?|]]|?] ?].
Qed.

Lemma getDeckHandler_again ToLower a name pointer d :
  deckLists a !! ToLower name = Some pointer →
  let a1 := {| deckLists := deckLists a; decks := <[pointer := (Bytes d).2]> (decks a) |} in
  getDeckHandler ToLower a1 name
  = Some (Returns (Data 200 (B "text/plain") (buf (Bytes d).2)), a1).
Proof.
  intros Hname a1.
  rewrite (getDeckHandler_registered _ _ _ pointer (Bytes d).2);
    [|done|simpl; by rewrite lookup_insert_eq].
  rewrite (Bytes_done (Bytes d).2) by apply Bytes_sets_done.
  cbn [fst snd]. f_equal. f_equal. apply API_eq; simpl; [done|].
  by rewrite insert_insert_eq.
Qed.

(** X17: Whatever the first request for a deck answered, every later request
    for it, by any name registered for the same deck, answers 200 with
    the buffer the first request left, and changes nothing.  A request
    changes no other deck and never the registry of names. *)
Theorem getDeckHandler_later_requests (ToLower : bytes → bytes) (a : API)
        (name : bytes) (pointer : nat) (d : deck) :
  deckLists a !! ToLower name = Some pointer → decks a !! pointer = Some d →
  ∃ r1 a1,
    getDeckHandler ToLower a name = Some (r1, a1)
    ∧ deckLists a1 = deckLists a
    ∧ (∀ q, q ≠ pointer → decks a1 !! q = decks a !! q)
    ∧ ∀ name', deckLists a !! ToLower name' = Some pointer →
               getDeckHandler ToLower a1 name'
               = Some (Returns (Data 200 (B "text/plain") (buf (Bytes d).2)), a1).
Proof.
  intros Hname Hd. eexists _, _.
  split; [by apply getDeckHandler_registered|].
  split; [done|]. split; [intros q Hq; simpl; by rewrite lookup_insert_ne|].
  intros name' Hname'. by apply getDeckHandler_again.
Qed.

Lemma getDeckHandler_later_requests_witness :
  ∃ r1 a1,
    getDeckHandler (map lowerASCII) (oneDeck smallDeck) (B "TestDeck") = Some (r1, a1)
    ∧ deckLists a1 = deckLists (oneDeck smallDeck)
    ∧ (∀ q, q ≠ 0%nat → decks a1 !! q = decks (oneDeck smallDeck) !! q)
    ∧ ∀ name', deckLists (oneDeck smallDeck) !! map lowerASCII name' = Some 0%nat →
               getDeckHandler (map lowerASCII) a1 name'
               = Some (Returns (Data 200 (B "text/plain")
                                     (buf (Bytes (newDeck smallDeck)).2)), a1).
Proof.
  apply (getDeckHandler_later_requests (map lowerASCII) (oneDeck smallDeck)
           (B "TestDeck") 0 (newDeck smallDeck)); reflexivity.
Defined.

(** X18: A registered new deck whose document decodes is served: the first
    request answers 200 with the report, and leaves a registry in which
    the same request has the same answer and changes nothing. *)
Theorem getDeckHandler_serves_report (ToLower : bytes → bytes) (a : API)
        (name raw out : bytes) (pointer : nat) :
  deckLists a !! ToLower name = Some pointer →
  decks a !! pointer = Some (newDeck raw) →
  bytePipeline raw = Ok out →
  ∃ a1,
    getDeckHandler ToLower a name = Some (Returns (Data 200 (B "text/plain") out), a1)
    ∧ getDeckHandler ToLower a1 name = Some (Returns (Data 200 (B "text/plain") out), a1).
Proof.
  intros Hname Hd Hout.
  pose proof (getDeckHandler_again ToLower a name pointer (newDeck raw) Hname) as Hlater.
  cbv zeta in Hlater.
  unfold bytePipeline in Hout.
  destruct (Bytes (newDeck raw)).1 as [[res [e|]]|p] eqn:HB; try done.
  injection Hout as ->.
  pose proof (Bytes_result_buf _ _ _ HB) as Hbuf. rewrite <- Hbuf in Hlater.
  eexists. split; [|exact Hlater].
  rewrite (getDeckHandler_registered _ _ _ _ _ Hname Hd). by rewrite HB.
Qed.

Lemma getDeckHandler_serves_report_witness :
  ∃ a1,
    getDeckHandler (map lowerASCII) (oneDeck smallDeck) (B "TestDeck")
    = Some (Returns (Data 200 (B "text/plain") smallDeckReport), a1)
    ∧ getDeckHandler (map lowerASCII) a1 (B "TestDeck")
      = Some (Returns (Data 200 (B "text/plain") smallDeckReport), a1).
Proof.
  apply (getDeckHandler_serves_report (map lowerASCII) (oneDeck smallDeck)
           (B "TestDeck") smallDeck smallDeckReport 0); vm_compute; reflexivity.
Defined.

(** X19: A registered new deck whose document fails to decode with an error
    is answered 500 with that error once; the same request then answers
    200 with the undecoded document, and from then on nothing changes. *)
Theorem getDeckHandler_error_once (ToLower : bytes → bytes) (a : API)
        (name raw : bytes) (e : error) (pointer : nat) :
  deckLists a !! ToLower name = Some pointer →
  decks a !! pointer = Some (newDeck raw) →
  bytePipeline raw = Err e →
  ∃ a1,
    getDeckHandler ToLower a name = Some (Returns (JSON 500 (inr e)), a1)
    ∧ getDeckHandler ToLower a1 name = Some (Returns (Data 200 (B "text/plain") raw), a1).
Proof.
  intros Hname Hd Hout.
  pose proof (getDeckHandler_again ToLower a name pointer (newDeck raw) Hname) as Hlater.
  cbv zeta in Hlater.
  unfold bytePipeline in Hout.
  destruct (Bytes (newDeck raw)).1 as [[res [e'|]]|p] eqn:HB; try done.
  injection Hout as ->.
  assert (buf (Bytes (newDeck raw)).2 = raw) as Hbuf.
  { pose proof (parse_buf_failure raw) as Hp.
    revert HB. rewrite Bytes_first by done. cbn [buf newDeck].
    destruct (parse_buf raw) as [buf' [[err|]|p]]; simpl in *; try done.
    by destruct Hp as [-> _]. }
  rewrite Hbuf in Hlater.
  eexists. split; [|exact Hlater].
  rewrite (getDeckHandler_registered _ _ _ _ _ Hname Hd). by rewrite HB.
Qed.

Lemma getDeckHandler_error_once_witness :
  ∃ a1,
    getDeckHandler (map lowerASCII) (oneDeck (B "no separator")) (B "TestDeck")
    = Some (Returns (JSON 500 (inr ErrInvalidDeck)), a1)
    ∧ getDeckHandler (map lowerASCII) a1 (B "TestDeck")
      = Some (Returns (Data 200 (B "text/plain") (B "no separator")), a1).
Proof.
  apply (getDeckHandler_error_once (map lowerASCII) (oneDeck (B "no separator"))
           (B "TestDeck") (B "no separator") ErrInvalidDeck 0); vm_compute; reflexivity.
Defined.

(** When the string pipeline succeeds on a document without an empty
    name in its table, the byte pipeline succeeds with the text
    [getStableOutput] writes, in whatever order Go iterates the map. *)
Lemma bytePipeline_getStableOutput s countMap :
  (∀ doc tableText,
     decompress s = Ok doc → Split doc (B ";;;") !! 1%nat = Some tableText →
     Forall (λ name, name ≠ []) (parseCards (splitDoubleSemicolonArray tableText))) →
  decompressDeck s = Ok countMap →
  ∀ keys, keys ≡ₚ (map_to_list countMap).*1 →
          bytePipeline s = Ok (getStableOutput_from keys countMap).
Proof.
  intros Hnames. unfold bytePipeline. rewrite Bytes_first by done.
  simpl buf. unfold parse_buf, decompressDeck.
  rewrite decompress_decompressBytes in *.
  destruct (decompressBytes s) as [doc|e|p] eqn:Hdoc; [|done..].
  rewrite bind_Ok. specialize (Hnames doc).
  rewrite parseCommaDelimitedIntegerArray_fields.
  set (idxText := default [] (Split doc (B ";;;") !! 0%nat)) in *.
  unfold second_part.
  destruct (Split doc (B ";;;") !! 1%nat) as [tableText|] eqn:Htable.
  2:{ by destruct (mapM ParseInt _). }
  specialize (Hnames tableText eq_refl eq_refl).
  rewrite readDelimitedBytes_fields, (table_entries_agree _ Hnames).
  destruct (foldM_readCard (splitDoubleSemicolonArray tableText) [] 0) as [l ->].
  rewrite app_nil_l, readDelimitedBytes_fields.
  pose proof (aggregations_agree (splitDoubleSemicolonArray tableText)
                (fields idxText (B ",")) ∅ [] Hnames counted_empty) as Hagg.
  destruct (foldM _ (fields idxText (B ",")) _) as [[m u]|e|p].
  - destruct Hagg as [Hstring Hinv].
    destruct (mapM ParseInt _) as [d|e|p]; [|done..].
    rewrite !bind_Ok in *. rewrite Hstring. intros [= <-] keys Hkeys.
    by rewrite (formatters_agree m u keys Hinv Hkeys).
  - destruct (mapM ParseInt _) as [d|e'|p]; [|done..].
    rewrite !bind_Ok in *. by destruct (decompressDeck_loop _ _ _).
  - destruct (mapM ParseInt _) as [d|e'|p']; [|done..].
    rewrite !bind_Ok in *. by destruct (decompressDeck_loop _ _ _).
Qed.

(** X20: What [TestDeckAPIHandler] asserts: for a new deck registered under
    the requested name, with a document on which [decompressDeck]
    succeeds and whose table has no empty name, the response is 200 with
    the text of [getStableOutput] on the counts of [decompressDeck], in
    whatever order Go iterates the map. *)
Theorem getDeckHandler_expected_output (ToLower : bytes → bytes) (a : API)
        (name raw : bytes) (pointer : nat) (countMap : gmap bytes Z)
        (keys : list bytes) :
  deckLists a !! ToLower name = Some pointer →
  decks a !! pointer = Some (newDeck raw) →
  (∀ doc tableText,
     decompress raw = Ok doc → Split doc (B ";;;") !! 1%nat = Some tableText →
     Forall (λ name, name ≠ []) (parseCards (splitDoubleSemicolonArray tableText))) →
  decompressDeck raw = Ok countMap →
  keys ≡ₚ (map_to_list countMap).*1 →
  ∃ a1, getDeckHandler ToLower a name
        = Some (Returns (Data 200 (B "text/plain") (getStableOutput_from keys countMap)),
                a1).
Proof.
  intros Hname Hd Hnames Hs Hkeys.
  pose proof (bytePipeline_getStableOutput raw countMap Hnames Hs keys Hkeys) as Hout.
  unfold bytePipeline in Hout.
  rewrite (getDeckHandler_registered _ _ _ _ _ Hname Hd).
  destruct (Bytes (newDeck raw)).1 as [[res [e|]]|p] eqn:HB; try done.
  injection Hout as ->. by eexists.
Qed.

Lemma getDeckHandler_expected_output_witness :
  ∃ a1, getDeckHandler (map lowerASCII) (oneDeck smallDeck) (B "testdeck")
        = Some (Returns (Data 200 (B "text/plain") (getStableOutput smallDeckCounts)),
                a1).
Proof.
  apply (getDeckHandler_expected_output (map lowerASCII) (oneDeck smallDeck)
           (B "testdeck") smallDeck 0 smallDeckCounts
           (map_to_list smallDeckCounts).*1).
  - reflexivity.
  - reflexivity.
  - intros doc tableText Hdoc Htable.
    assert (doc = B "0,1,1,0,2,0;;;card1;junk;x;;card2;junk;y;;card3;junk;z") as ->
      by (vm_compute in Hdoc; injection Hdoc as <-; reflexivity).
    assert (tableText = B "card1;junk;x;;card2;junk;y;;card3;junk;z") as ->
      by (vm_compute in Htable; injection Htable as <-; reflexivity).
    vm_compute. repeat constructor; discriminate.
  - by vm_compute.
  - reflexivity.
Defined.

